(** * An ordered set on an AA tree (Set.h): model and verification

    The element type of the template is instantiated at the integers [Z]
    with their usual order.  The graph of nodes is owned hierarchically (every
    node is owned by exactly one child slot, or by [Root_]), so the live part
    of the heap is a tree; each node of the model carries the address it is
    allocated at, and [PreviousNode] is a raw address that is looked up in the
    tree when it is followed.  A node that is deleted leaves the tree, and
    an address that is not in the tree is dangling.  [Level] is a [uint32_t]
    and [Size_] a [size_t] (taken as 64 bits wide); their arithmetic wraps. *)

From Stdlib Require Import ZArith Lia.
From stdpp Require Import base list sorting gmap.

Local Open Scope Z_scope.

(** ** Data model *)

Definition addr := nat.

(** A [TNode*]: the null pointer, or the node allocated at [self] with the
    fields of struct [TNode] (the two owning child pointers are the
    subtrees). *)
Inductive TNode : Type :=
| nullptr
| Node (self : addr) (Value : Z) (Level : Z) (PreviousNode : option addr)
       (LeftNode RightNode : TNode).

(** The set object ([Root_], [Size_]) together with the allocator, which
    hands out [next_addr] and never reuses an address. *)
Record Store : Type := mkStore {
  Root_ : TNode;
  Size_ : Z;
  next_addr : addr
}.

Definition uint32 (x : Z) : Z := x mod 2 ^ 32.
Definition size_t (x : Z) : Z := x mod 2 ^ 64.

(** ** A small state monad for the member functions *)

Definition M (A : Type) : Type := Store -> A * Store.

Definition ret {A} (a : A) : M A := fun s => (a, s).

Definition bind {A B} (m : M A) (k : A -> M B) : M B :=
  fun s => let (a, s') := m s in k a s'.

Notation "x <- m ;; k" := (bind m (fun x => k))
  (at level 100, m at next level, right associativity).

(** [new TNode(...)]: a fresh address. *)
Definition new : M addr :=
  fun s => (next_addr s, mkStore (Root_ s) (Size_ s) (S (next_addr s))).

(** [++Size_] and [--Size_]. *)
Definition incr_Size : M unit :=
  fun s => (tt, mkStore (Root_ s) (size_t (Size_ s + 1)) (next_addr s)).

Definition decr_Size : M unit :=
  fun s => (tt, mkStore (Root_ s) (size_t (Size_ s - 1)) (next_addr s)).

(** [if (n != nullptr) n->PreviousNode = p]. *)
Definition set_parent (p : option addr) (n : TNode) : TNode :=
  match n with
  | nullptr => nullptr
  | Node a v lv _ l r => Node a v lv p l r
  end.

(** ** Tree engine *)

(** Both rotations build two nodes with [new], relink the surviving
    neighbours and delete the two nodes they replace.  The node built by the
    nested [new] gets its [PreviousNode] from the first assignment after the
    construction; the outer allocation comes first. *)
Definition Skew (currentNode : TNode) : M TNode :=
  match currentNode with
  | Node _ dv dlv dprev (Node _ bv blv _ A C) F =>
      if negb (dlv =? blv) then ret currentNode
      else
        b <- new ;;
        d <- new ;;
        ret (Node b bv blv dprev
               (set_parent (Some b) A)
               (Node d dv dlv (Some b)
                  (set_parent (Some d) C) (set_parent (Some d) F)))
  | _ => ret currentNode
  end.

Definition Split (currentNode : TNode) : M TNode :=
  match currentNode with
  | Node _ bv blv bprev A (Node _ cv clv _ D E) =>
      match E with
      | nullptr => ret currentNode
      | Node _ _ elv _ _ _ =>
          if negb (blv =? elv) then ret currentNode
          else
            c <- new ;;
            b <- new ;;
            ret (Node c cv (uint32 (clv + 1)) bprev
                   (Node b bv blv (Some c)
                      (set_parent (Some b) A) (set_parent (Some b) D))
                   (set_parent (Some c) E))
      end
  | _ => ret currentNode
  end.

Fixpoint Insert (currentNode : TNode) (insertedValue : Z) : M TNode :=
  match currentNode with
  | nullptr =>
      _ <- incr_Size ;;
      a <- new ;;
      ret (Node a insertedValue 1 None nullptr nullptr)
  | Node a v lv p l r =>
      l1 <- (if insertedValue <? v
             then l' <- Insert l insertedValue ;; ret (set_parent (Some a) l')
             else ret l) ;;
      r1 <- (if v <? insertedValue
             then r' <- Insert r insertedValue ;; ret (set_parent (Some a) r')
             else ret r) ;;
      c <- Skew (Node a v lv p l1 r1) ;;
      Split c
  end.

Definition IsLeaf (currentNode : TNode) : bool :=
  match currentNode with
  | Node _ _ _ _ nullptr nullptr => true
  | _ => false
  end.

(** The loop [while (n->LeftNode != nullptr) n = n->LeftNode] (and its mirror
    image).  On the null pointer, which the source would dereference, they
    stay null. *)
Fixpoint leftmost (n : TNode) : TNode :=
  match n with
  | nullptr => nullptr
  | Node _ _ _ _ nullptr _ => n
  | Node _ _ _ _ l _ => leftmost l
  end.

Fixpoint rightmost (n : TNode) : TNode :=
  match n with
  | nullptr => nullptr
  | Node _ _ _ _ _ nullptr => n
  | Node _ _ _ _ _ r => rightmost r
  end.

Definition Predecessor (currentNode : TNode) : TNode :=
  match currentNode with
  | nullptr => nullptr
  | Node _ _ _ _ l _ => rightmost l
  end.

Definition Successor (currentNode : TNode) : TNode :=
  match currentNode with
  | nullptr => nullptr
  | Node _ _ _ _ _ r => leftmost r
  end.

Definition level_of (n : TNode) : Z :=
  match n with
  | nullptr => 0
  | Node _ _ lv _ _ _ => lv
  end.

Definition DecreaseLevel (currentNode : TNode) : TNode :=
  match currentNode with
  | Node a v lv p (Node _ _ llv _ _ _ as l) (Node ra rv rlv rp rl rr as r) =>
      let expectedLevel := uint32 (Z.min llv rlv + 1) in
      if expectedLevel <? lv then
        Node a v expectedLevel p l
             (if expectedLevel <? rlv then Node ra rv expectedLevel rp rl rr
              else r)
      else currentNode
  | _ => currentNode
  end.

(** [currentNode->RightNode = f(currentNode->RightNode)].  The source
    dereferences [currentNode]; in [Erase] it is never null there, since
    [Skew] and [Split] return a node when they are given one. *)
Definition on_RightNode (f : TNode -> M TNode) (currentNode : TNode) : M TNode :=
  match currentNode with
  | nullptr => ret nullptr
  | Node a v lv p l r => r' <- f r ;; ret (Node a v lv p l r')
  end.

(** The tail of [Erase] (from the call of [DecreaseLevel] to the return). *)
Definition Erase_fixup (currentNode : TNode) : M TNode :=
  let c := DecreaseLevel currentNode in
  c <- Skew c ;;
  c <- on_RightNode Skew c ;;
  c <- on_RightNode (fun r => match r with
                              | nullptr => ret nullptr
                              | _ => on_RightNode Skew r
                              end) c ;;
  c <- Split c ;;
  on_RightNode Split c.

(** In the two branches that replace the value, the node is not a leaf, so
    [Successor] (for an absent left child) and [Predecessor] are never
    null; the fall-through branches stand for the null dereference of the
    source and are not taken. *)
Fixpoint Erase (currentNode : TNode) (erasedValue : Z) : M TNode :=
  match currentNode with
  | nullptr => ret nullptr
  | Node a v lv p l r =>
      if erasedValue <? v then
        l' <- Erase l erasedValue ;;
        Erase_fixup (Node a v lv p (set_parent (Some a) l') r)
      else if v <? erasedValue then
        r' <- Erase r erasedValue ;;
        Erase_fixup (Node a v lv p l (set_parent (Some a) r'))
      else if IsLeaf currentNode then
        _ <- decr_Size ;;
        ret nullptr
      else
        match l with
        | nullptr =>
            match Successor currentNode with
            | Node _ successorValue _ _ _ _ =>
                r' <- Erase r successorValue ;;
                Erase_fixup
                  (Node a successorValue lv p l (set_parent (Some a) r'))
            | nullptr => ret currentNode
            end
        | Node _ _ _ _ _ _ =>
            match Predecessor currentNode with
            | Node _ predecessorValue _ _ _ _ =>
                l' <- Erase l predecessorValue ;;
                Erase_fixup
                  (Node a predecessorValue lv p (set_parent (Some a) l') r)
            | nullptr => ret currentNode
            end
        end
  end.

(** ** Public interface of [Set] *)

Definition empty_set : Store := mkStore nullptr 0 1%nat.

Definition insert (insertedValue : Z) (s : Store) : Store :=
  let (r, s') := Insert (Root_ s) insertedValue s in
  mkStore r (Size_ s') (next_addr s').

Definition erase (erasedValue : Z) (s : Store) : Store :=
  let (r, s') := Erase (Root_ s) erasedValue s in
  mkStore r (Size_ s') (next_addr s').

Definition size (s : Store) : Z := Size_ s.

Definition empty (s : Store) : bool := Size_ s =? 0.

(** ** Ordered iterator *)

(** An iterator holds the address of its set object and the address of its
    node, or no node at the end position. *)
Record TIterator : Type := mkIter {
  Set_ : addr;
  IteratorNode_ : option addr
}.

(** The address held by a pointer. *)
Definition self_of (n : TNode) : option addr :=
  match n with
  | nullptr => None
  | Node a _ _ _ _ _ => Some a
  end.

(** Following a raw address: the live nodes are those of the tree, and an
    address that is not among them is dangling. *)
Fixpoint node_at (a : addr) (heap : TNode) : option TNode :=
  match heap with
  | nullptr => None
  | Node b _ _ _ l r =>
      if decide (a = b) then Some heap
      else match node_at a l with
           | Some n => Some n
           | None => node_at a r
           end
  end.

Fixpoint count (n : TNode) : nat :=
  match n with
  | nullptr => 0
  | Node _ _ _ _ l r => S (count l + count r)
  end.

(** The ascent of [operator++]: the loop over [PreviousNode] followed by the
    last step to the parent.  The loop only reads the heap, so a run that
    has not ended after as many rounds as there are nodes never ends; [None]
    stands for that and for following a dangling address. *)
Fixpoint climb_inc (fuel : nat) (heap : TNode) (cur : addr)
  : option (option addr) :=
  match fuel with
  | O => None
  | S fuel' =>
      match node_at cur heap with
      | Some (Node _ v _ (Some p) _ _) =>
          match node_at p heap with
          | Some (Node _ pv _ _ _ _) =>
              if pv <? v then climb_inc fuel' heap p else Some (Some p)
          | _ => None
          end
      | Some (Node _ _ _ None _ _) => Some None
      | _ => None
      end
  end.

Fixpoint climb_dec (fuel : nat) (heap : TNode) (cur : addr)
  : option (option addr) :=
  match fuel with
  | O => None
  | S fuel' =>
      match node_at cur heap with
      | Some (Node _ v _ (Some p) _ _) =>
          match node_at p heap with
          | Some (Node _ pv _ _ _ _) =>
              if v <? pv then climb_dec fuel' heap p else Some (Some p)
          | _ => None
          end
      | Some (Node _ _ _ None _ _) => Some None
      | _ => None
      end
  end.

(** The two branches of [operator++] at the node of address [a]. *)
Definition step_inc (fuel : nat) (heap : TNode) (a : addr)
  : option (option addr) :=
  match node_at a heap with
  | Some (Node _ _ _ _ _ nullptr) => climb_inc fuel heap a
  | Some (Node _ _ _ _ _ _ as n) => Some (self_of (Successor n))
  | _ => None
  end.

Definition step_dec (fuel : nat) (heap : TNode) (a : addr)
  : option (option addr) :=
  match node_at a heap with
  | Some (Node _ _ _ _ nullptr _) => climb_dec fuel heap a
  | Some (Node _ _ _ _ _ _ as n) => Some (self_of (Predecessor n))
  | _ => None
  end.

(** [operator++]; [None] is undefined behaviour (the end position or a
    dangling node is dereferenced) or a loop that does not end. *)
Definition operator_inc (s : Store) (it : TIterator) : option TIterator :=
  match IteratorNode_ it with
  | None => None
  | Some a =>
      match step_inc (S (count (Root_ s))) (Root_ s) a with
      | Some n => Some (mkIter (Set_ it) n)
      | None => None
      end
  end.

(** [operator--]; from the end position it goes to the rightmost node of
    [Set_->Root_]. *)
Definition operator_dec (s : Store) (it : TIterator) : option TIterator :=
  match IteratorNode_ it with
  | None => Some (mkIter (Set_ it) (self_of (rightmost (Root_ s))))
  | Some a =>
      match step_dec (S (count (Root_ s))) (Root_ s) a with
      | Some n => Some (mkIter (Set_ it) n)
      | None => None
      end
  end.

(** [operator*]. *)
Definition deref (s : Store) (it : TIterator) : option Z :=
  match IteratorNode_ it with
  | None => None
  | Some a =>
      match node_at a (Root_ s) with
      | Some (Node _ v _ _ _ _) => Some v
      | _ => None
      end
  end.

(** [operator==] and [operator!=]. *)
Definition iter_eqb (x y : TIterator) : bool :=
  bool_decide (Set_ x = Set_ y) && bool_decide (IteratorNode_ x = IteratorNode_ y).

Definition iter_neqb (x y : TIterator) : bool :=
  negb (bool_decide (Set_ x = Set_ y))
  || negb (bool_decide (IteratorNode_ x = IteratorNode_ y)).

(** The remaining members of [Set]; [this] is the address of the set
    object. *)
Definition end_ (this : addr) : TIterator := mkIter this None.

Definition begin (this : addr) (s : Store) : TIterator :=
  match Root_ s with
  | nullptr => end_ this
  | root => mkIter this (self_of (leftmost root))
  end.

Fixpoint lower_bound_loop (this : addr) (s : Store) (currentNode : TNode)
    (wantedValue : Z) : option TIterator :=
  match currentNode with
  | nullptr => Some (mkIter this None)
  | Node a v _ _ l r =>
      if v <? wantedValue then
        match r with
        | nullptr => operator_inc s (mkIter this (Some a))
        | _ => lower_bound_loop this s r wantedValue
        end
      else
        match l with
        | nullptr => Some (mkIter this (Some a))
        | _ =>
            if wantedValue <? v then lower_bound_loop this s l wantedValue
            else Some (mkIter this (Some a))
        end
  end.

Definition lower_bound (this : addr) (s : Store) (wantedValue : Z)
  : option TIterator :=
  lower_bound_loop this s (Root_ s) wantedValue.

Definition find (this : addr) (s : Store) (wantedValue : Z)
  : option TIterator :=
  match lower_bound this s wantedValue with
  | None => None
  | Some iter =>
      if iter_neqb iter (end_ this) then
        match deref s iter with
        | None => None
        | Some v =>
            if negb (v <? wantedValue) && negb (wantedValue <? v)
            then Some iter
            else Some (end_ this)
        end
      else Some (end_ this)
  end.

(** ** Histories of public mutations *)

Inductive op : Type :=
| OpInsert (v : Z)
| OpErase (v : Z).

Definition apply_op (s : Store) (o : op) : Store :=
  match o with
  | OpInsert v => insert v s
  | OpErase v => erase v s
  end.

Definition run (ops : list op) (s : Store) : Store :=
  fold_left apply_op ops s.

(** A state is reachable when a sequence of [insert] and [erase] calls leads
    to it from the empty set.  (The constructors from a list, a range or
    another set only call [Insert].) *)
Definition reachable (s : Store) : Prop :=
  exists ops, s = run ops empty_set.

(** ** Observations *)

(** The in-order traversal: the nodes as (address, value), the values and
    the addresses. *)
Fixpoint inorder (n : TNode) : list (addr * Z) :=
  match n with
  | nullptr => []
  | Node a v _ _ l r => inorder l ++ (a, v) :: inorder r
  end.

Fixpoint vals (n : TNode) : list Z :=
  match n with
  | nullptr => []
  | Node _ v _ _ l r => vals l ++ v :: vals r
  end.

Fixpoint addrs (n : TNode) : list addr :=
  match n with
  | nullptr => []
  | Node a _ _ _ l r => addrs l ++ a :: addrs r
  end.

Definition contents (s : Store) : list Z := vals (Root_ s).

(** The number of nodes on the longest path from the root down. *)
Fixpoint height (n : TNode) : nat :=
  match n with
  | nullptr => 0
  | Node _ _ _ _ l r => S (Nat.max (height l) (height r))
  end.

Definition left_of (n : TNode) : TNode :=
  match n with
  | nullptr => nullptr
  | Node _ _ _ _ l _ => l
  end.

Definition right_of (n : TNode) : TNode :=
  match n with
  | nullptr => nullptr
  | Node _ _ _ _ _ r => r
  end.

Definition parent_of (n : TNode) : option addr :=
  match n with
  | nullptr => None
  | Node _ _ _ p _ _ => p
  end.

(** [node_of n t]: the node [n] is one of the nodes of [t]. *)
Fixpoint node_of (n t : TNode) : Prop :=
  match t with
  | nullptr => False
  | Node _ _ _ _ l r => n = t \/ node_of n l \/ node_of n r
  end.

(** The addresses of the live nodes. *)
Fixpoint live (t : TNode) : gset addr :=
  match t with
  | nullptr => ∅
  | Node a _ _ _ l r => {[a]} ∪ live l ∪ live r
  end.

(** ** The specification, on lists and sets of values *)

(** The list-level reading of the two mutations: [ins_list] puts the value
    at its place among the others, once; [del_list] removes it. *)
Definition ins_list (v : Z) (xs : list Z) : list Z :=
  filter (fun x => x < v) xs ++ v :: filter (fun x => v < x) xs.

Definition del_list (v : Z) (xs : list Z) : list Z :=
  filter (fun x => x <> v) xs.

(** Strictly ascending. *)
Definition sorted (xs : list Z) : Prop := StronglySorted Z.lt xs.

(** The first address in [xs] whose value is not below [w]. *)
Fixpoint first_ge (w : Z) (xs : list (addr * Z)) : option addr :=
  match xs with
  | [] => None
  | (a, v) :: xs' => if v <? w then first_ge w xs' else Some a
  end.

(** The address in [xs] that holds the value [w]. *)
Fixpoint addr_of_value (w : Z) (xs : list (addr * Z)) : option addr :=
  match xs with
  | [] => None
  | (a, v) :: xs' => if decide (v = w) then Some a else addr_of_value w xs'
  end.

(** The reading of the specification of [Size_]: the mathematical set after
    each call, and the tally of the calls that changed it (an insert of a
    value that was not in the set counts 1, an erase of a value that was in
    the set counts -1, every other call counts 0). *)
Definition model_apply (m : gset Z) (o : op) : gset Z :=
  match o with
  | OpInsert v => {[v]} ∪ m
  | OpErase v => m ∖ {[v]}
  end.

Definition tally (m : gset Z) (o : op) : Z :=
  match o with
  | OpInsert v => if decide (v ∈ m) then 0 else 1
  | OpErase v => if decide (v ∈ m) then -1 else 0
  end.

Fixpoint net_changes (m : gset Z) (ops : list op) : Z :=
  match ops with
  | [] => 0
  | o :: ops' => tally m o + net_changes (model_apply m o) ops'
  end.

(** The bound of the balance invariant, the ceiling of [2 * log2 (n + 1)],
    which is the ceiling of [log2 ((n + 1) ^ 2)]. *)
Definition height_bound (n : Z) : Z := Z.log2_up ((n + 1) ^ 2).

(** ** Invariants *)

(** Every node below (and including) the root of [t] has the node that owns
    it as [PreviousNode]; the root of [t] has [p]. *)
Fixpoint parents_ok (p : option addr) (t : TNode) : Prop :=
  match t with
  | nullptr => True
  | Node a _ _ prev l r =>
      prev = p /\ parents_ok (Some a) l /\ parents_ok (Some a) r
  end.

(** No two live nodes share an address. *)
Fixpoint uniq (t : TNode) : Prop :=
  match t with
  | nullptr => True
  | Node a _ _ _ l r =>
      (a ∉ live l) /\ (a ∉ live r) /\ (live l ## live r) /\ uniq l /\ uniq r
  end.

(** Every live address was handed out before [n]. *)
Definition below (n : addr) (t : TNode) : Prop :=
  forall a, a ∈ live t -> (a < n)%nat.

(** How a step of the engine treats addresses: the allocator only moves
    forward, every node of the result is an old node or a freshly
    allocated one, and distinctness is kept. *)
Definition alloc_rel (t : TNode) (s : Store) (c : TNode) (s' : Store) : Prop :=
  (next_addr s <= next_addr s')%nat /\
  (forall a, a ∈ live c -> a ∈ live t \/ (next_addr s <= a < next_addr s')%nat) /\
  (uniq t -> below (next_addr s) t -> uniq c).

(** What holds in every reachable state. *)
Record wf (s : Store) : Prop := mkWf {
  wf_sorted : sorted (vals (Root_ s));
  wf_parents : parents_ok None (Root_ s);
  wf_uniq : uniq (Root_ s);
  wf_below : below (next_addr s) (Root_ s);
  wf_Size : Size_ s = size_t (Z.of_nat (count (Root_ s)))
}.

(** The level invariants of an AA tree, at every node: a leaf has level 1,
    the left child is one level below, the right child is at the same level
    or one below, and the right grandchild is strictly below.  An absent
    subtree has level 0.  [aa_invariants] decides them; [aa] states the
    same without the clause for leaves, which follows from the one for the
    left child. *)
Fixpoint aa_invariants (n : TNode) : bool :=
  match n with
  | nullptr => true
  | Node _ _ lv _ l r =>
      (if IsLeaf n then lv =? 1 else true)
      && (level_of l =? lv - 1)
      && ((level_of r =? lv) || (level_of r =? lv - 1))
      && (level_of (right_of r) <? lv)
      && aa_invariants l && aa_invariants r
  end.

Fixpoint aa (t : TNode) : Prop :=
  match t with
  | nullptr => True
  | Node _ _ lv _ l r =>
      aa l /\ aa r /\
      level_of l = lv - 1 /\
      (level_of r = lv \/ level_of r = lv - 1) /\
      level_of (right_of r) < lv
  end.

(** ** Predicates of the statements *)

(** The [PreviousNode] of [c] is the address of a live node, and that node
    is [n]. *)
Definition designates (root c n : TNode) : Prop :=
  exists q, parent_of c = Some q /\ node_at q root = Some n.

(** The back-references agree with the owning edges. *)
Definition parents_consistent (root : TNode) : Prop :=
  parent_of root = None /\
  forall a v lv p l r,
    node_of (Node a v lv p l r) root ->
    (l <> nullptr -> designates root l (Node a v lv p l r)) /\
    (r <> nullptr -> designates root r (Node a v lv p l r)).

(** The iterator [it] is at the first element of the sorted sequence that
    is not below [w], or at the end when there is none. *)
Definition at_first_not_below (s : Store) (w : Z) (it : TIterator) : Prop :=
  match IteratorNode_ it with
  | None => Forall (fun x => x < w) (contents s)
  | Some a =>
      exists i v,
        addrs (Root_ s) !! i = Some a /\
        contents s !! i = Some v /\
        deref s it = Some v /\
        w <= v /\
        Forall (fun x => x < w) (take i (contents s))
  end.

(** ** Example histories *)

(** A state used to instantiate the statements below: the set {3, 4, 8}
    after five calls. *)
Definition example_ops : list op :=
  [OpInsert 5; OpInsert 3; OpInsert 8; OpErase 5; OpInsert 4].

Definition example_state : Store := run example_ops empty_set.

(** The set {1,3,5,8} of the example, built by four inserts. *)
Definition set_1358 : Store :=
  run [OpInsert 1; OpInsert 3; OpInsert 5; OpInsert 8] empty_set.

Definition ops_123 : list op := [OpInsert 1; OpInsert 2; OpInsert 3].

(** The inserts of 1, 2, ..., [n] in this order. *)
Definition ascending (n : nat) : list op := OpInsert <$> seqZ 1 (Z.of_nat n).

(** Twenty-two ascending inserts, then fifteen erases that leave one path. *)
Definition ops_tall : list op :=
  ascending 22 ++
  (OpErase <$> [17; 11; 19; 1; 5; 15; 3; 13; 2; 14; 7; 9; 6; 10; 4]).

(** The same with forty-six inserts and thirty-six erases. *)
Definition ops_taller : list op :=
  ascending 46 ++
  (OpErase <$> [41; 3; 29; 17; 33; 19; 43; 21; 35; 27; 13; 5; 31; 7; 37; 18;
                15; 39; 23; 11; 34; 6; 25; 38; 9; 22; 1; 14; 26; 10; 2; 30;
                20; 12; 28; 4]).

(** ** The remaining members *)

(** [TNode::Clear], called by the destructor and by [operator=] on a
    non-null root: the left subtree, the right subtree, then [delete this].
    The result lists the addresses in the order in which they are
    deleted. *)
Fixpoint Clear (n : TNode) : list addr :=
  match n with
  | nullptr => []
  | Node a _ _ _ l r => Clear l ++ Clear r ++ [a]
  end.

(** The constructors from an initializer list and from a range:
    [Root_ = Insert(Root_, v)] for each value in turn. *)
Definition from_list (vs : list Z) : Store :=
  fold_left (fun s v => insert v s) vs empty_set.

(** The loop [for (auto currentValue : set) insert(currentValue)] of the
    copy constructor and of [operator=]: [from] and [src] are the set that
    is read, [dst] the one that is filled.  [None] is undefined behaviour in
    the iterator, or a loop that does not end. *)
Fixpoint copy_loop (fuel : nat) (from : addr) (src : Store) (it : TIterator)
    (dst : Store) : option Store :=
  match fuel with
  | O => None
  | S fuel' =>
      if iter_neqb it (end_ from) then
        match deref src it with
        | None => None
        | Some currentValue =>
            let dst' := insert currentValue dst in
            match operator_inc src it with
            | None => None
            | Some it' => copy_loop fuel' from src it' dst'
            end
        end
      else Some dst
  end.

(** [Set(Set& set)]: the new object starts with a null [Root_] and
    [Size_ = 0]; [brk] is where the allocator stands when the constructor is
    called. *)
Definition copy_construct (brk : addr) (from : addr) (src : Store)
  : option Store :=
  copy_loop (S (count (Root_ src))) from src (begin from src)
    (mkStore nullptr 0 brk).

(** [operator=]: nothing on self-assignment; otherwise a non-null tree is
    cleared and [Size_] reset, and the values of [set] are inserted. *)
Definition assign (brk : addr) (this from : addr) (dst src : Store)
  : option Store :=
  if decide (this = from) then Some dst
  else
    let cleared :=
      match Root_ dst with
      | nullptr => mkStore nullptr (Size_ dst) brk
      | _ => mkStore nullptr 0 brk
      end in
    copy_loop (S (count (Root_ src))) from src (begin from src) cleared.

(** [k] applications of [operator++]. *)
Fixpoint advance (k : nat) (s : Store) (it : TIterator) : option TIterator :=
  match k with
  | O => Some it
  | S k' =>
      match operator_inc s it with
      | Some it' => advance k' s it'
      | None => None
      end
  end.

(** * Proofs *)

(** ** Reasoning about the monad *)

Lemma bind_inv {A B} (m : M A) (k : A -> M B) s b s' :
  bind m k s = (b, s') -> exists a s1, m s = (a, s1) /\ k a s1 = (b, s').
Proof. unfold bind. destruct (m s) as [a s1]. eauto. Qed.

Lemma ret_inv {A} (a b : A) s s' : ret a s = (b, s') -> b = a /\ s' = s.
Proof. unfold ret. intros [= <- <-]. done. Qed.

Ltac minv :=
  repeat match goal with
  | H : bind _ _ _ = (_, _) |- _ =>
      let a := fresh "c" in
      let s := fresh "s" in
      let E := fresh "E" in
      apply bind_inv in H as (a & s & E & H)
  | H : ret _ _ = (_, _) |- _ => apply ret_inv in H as [-> ->]
  end.

(** Case analysis of the two rotations. *)
Lemma Skew_cases t s c s' :
  Skew t s = (c, s') ->
  (c = t /\ s' = s) \/
  exists a0 dv lv dprev b0 bv bprev A C F,
    t = Node a0 dv lv dprev (Node b0 bv lv bprev A C) F /\
    c = Node (next_addr s) bv lv dprev
          (set_parent (Some (next_addr s)) A)
          (Node (S (next_addr s)) dv lv (Some (next_addr s))
             (set_parent (Some (S (next_addr s))) C)
             (set_parent (Some (S (next_addr s))) F)) /\
    s' = mkStore (Root_ s) (Size_ s) (S (S (next_addr s))).
Proof.
  destruct t as [|a0 dv dlv dprev [|b0 bv blv bprev A C] F]; simpl;
    try (intros [= <- <-]; by left).
  destruct (dlv =? blv) eqn:E; simpl; [|intros [= <- <-]; by left].
  apply Z.eqb_eq in E as ->. intros [= <- <-]. right.
  by repeat eexists.
Qed.

Lemma Split_cases t s c s' :
  Split t s = (c, s') ->
  (c = t /\ s' = s) \/
  exists a0 bv lv bprev A c0 cv clv cprev D e0 ev eprev El Er,
    t = Node a0 bv lv bprev A
          (Node c0 cv clv cprev D (Node e0 ev lv eprev El Er)) /\
    c = Node (next_addr s) cv (uint32 (clv + 1)) bprev
          (Node (S (next_addr s)) bv lv (Some (next_addr s))
             (set_parent (Some (S (next_addr s))) A)
             (set_parent (Some (S (next_addr s))) D))
          (Node e0 ev lv (Some (next_addr s)) El Er) /\
    s' = mkStore (Root_ s) (Size_ s) (S (S (next_addr s))).
Proof.
  destruct t as [|a0 bv blv bprev A [|c0 cv clv cprev D [|e0 ev elv eprev El Er]]];
    simpl; try (intros [= <- <-]; by left).
  destruct (blv =? elv) eqn:E; simpl; [|intros [= <- <-]; by left].
  apply Z.eqb_eq in E as ->. intros [= <- <-]. right.
  by repeat eexists.
Qed.

Lemma Skew_not_null t s : t <> nullptr -> (Skew t s).1 <> nullptr.
Proof.
  intros Ht. destruct (Skew t s) as [c s'] eqn:E. simpl.
  apply Skew_cases in E as [[-> _]|E]; [done|].
  by destruct E as (?&?&?&?&?&?&?&?&?&?&_&->&_).
Qed.

Lemma Split_not_null t s : t <> nullptr -> (Split t s).1 <> nullptr.
Proof.
  intros Ht. destruct (Split t s) as [c s'] eqn:E. simpl.
  apply Split_cases in E as [[-> _]|E]; [done|].
  by destruct E as (?&?&?&?&?&?&?&?&?&?&?&?&?&?&?&_&->&_).
Qed.

(** The fall-through branches of [Erase] are not taken. *)
Lemma Successor_not_null a v lv p l r :
  r <> nullptr -> Successor (Node a v lv p l r) <> nullptr.
Proof.
  intros Hr. simpl. clear l. induction r as [|ra rv rlv rp rl IHl rr _]; [done|].
  destruct rl; [done|]. by apply IHl.
Qed.

Lemma Predecessor_not_null a v lv p l r :
  l <> nullptr -> Predecessor (Node a v lv p l r) <> nullptr.
Proof.
  intros Hl. simpl. clear r. induction l as [|la lx llv lp ll _ lr IHr]; [done|].
  destruct lr; [done|]. by apply IHr.
Qed.

Arguments Skew : simpl never.
Arguments Split : simpl never.
Arguments Erase_fixup : simpl never.

(** ** The in-order sequence of values *)

Lemma vals_set_parent p t : vals (set_parent p t) = vals t.
Proof. by destruct t. Qed.

Lemma vals_Skew t s c s' : Skew t s = (c, s') -> vals c = vals t.
Proof.
  intros H. apply Skew_cases in H as [[-> _]|H]; [done|].
  destruct H as (a0&dv&lv&dprev&b0&bv&bprev&A&C&F&->&->&_).
  simpl. rewrite !vals_set_parent, <-!app_assoc. done.
Qed.

Lemma vals_Split t s c s' : Split t s = (c, s') -> vals c = vals t.
Proof.
  intros H. apply Split_cases in H as [[-> _]|H]; [done|].
  destruct H as (a0&bv&lv&bprev&A&c0&cv&clv&cprev&D&e0&ev&eprev&El&Er&->&->&_).
  simpl. rewrite !vals_set_parent, <-!app_assoc. done.
Qed.

Lemma vals_DecreaseLevel t : vals (DecreaseLevel t) = vals t.
Proof.
  destruct t as [|a v lv p [|la lv' llv lp ll lr] [|ra rv rlv rp rl rr]]; simpl; try done.
  repeat case_match; done.
Qed.

Lemma vals_on_RightNode f t s c s' :
  (forall r s1 r' s2, f r s1 = (r', s2) -> vals r' = vals r) ->
  on_RightNode f t s = (c, s') -> vals c = vals t.
Proof.
  intros Hf. destruct t as [|a v lv p l r]; simpl; intros H; minv; [done|].
  simpl. apply Hf in E. by rewrite E.
Qed.

Lemma vals_Erase_fixup t s c s' : Erase_fixup t s = (c, s') -> vals c = vals t.
Proof.
  unfold Erase_fixup. intros H. minv.
  apply vals_on_RightNode in H; [|apply vals_Split].
  apply vals_Split in E2.
  apply vals_on_RightNode in E1.
  2:{ intros r u r' u'. destruct r; [simpl; intros Hr; by minv|].
      apply vals_on_RightNode, vals_Skew. }
  apply vals_on_RightNode in E0; [|apply vals_Skew].
  apply vals_Skew in E. rewrite vals_DecreaseLevel in E. congruence.
Qed.

(** ** Sorted lists of values *)

Lemma filter_all {A} (P : A -> Prop) `{!forall x, Decision (P x)} (xs : list A) :
  Forall P xs -> filter P xs = xs.
Proof.
  induction 1 as [|x xs Hx _ IH]; [done|].
  by rewrite filter_cons_True, IH.
Qed.

Lemma filter_none {A} (P : A -> Prop) `{!forall x, Decision (P x)} (xs : list A) :
  Forall (fun x => ~ P x) xs -> filter P xs = [].
Proof.
  induction 1 as [|x xs Hx _ IH]; [done|].
  by rewrite filter_cons_False.
Qed.

Lemma sorted_node xs a ys :
  sorted (xs ++ a :: ys) <->
  sorted xs /\ sorted ys /\ Forall (fun x => x < a) xs /\ Forall (fun y => a < y) ys.
Proof.
  unfold sorted. rewrite StronglySorted_app, StronglySorted_cons, !Forall_forall.
  split.
  - intros (H & Hxs & Hay & Hys). repeat split; try done.
    intros x Hx. apply (H x a); [done|]. by left.
  - intros (Hxs & Hys & Hxa & Hay). repeat split; try done.
    intros x y Hx [->|Hy]%elem_of_cons; [by apply Hxa|].
    specialize (Hxa x Hx). specialize (Hay y Hy). lia.
Qed.

Ltac forall_lia :=
  match goal with
  | |- Forall _ _ => eapply Forall_impl; [eassumption|]; simpl; intros; lia
  end.

Lemma ins_list_lt v xs a ys :
  v < a -> Forall (fun y => a < y) ys ->
  ins_list v (xs ++ a :: ys) = ins_list v xs ++ a :: ys.
Proof.
  intros Hv Hys. unfold ins_list.
  rewrite !filter_app, (filter_cons_False _ a), (filter_cons_True _ a) by lia.
  rewrite (filter_none _ ys), (filter_all _ ys) by forall_lia.
  by rewrite app_nil_r, <-app_assoc.
Qed.

Lemma ins_list_gt v xs a ys :
  a < v -> Forall (fun x => x < a) xs ->
  ins_list v (xs ++ a :: ys) = xs ++ a :: ins_list v ys.
Proof.
  intros Hv Hxs. unfold ins_list.
  rewrite !filter_app, (filter_cons_True _ a), (filter_cons_False _ a) by lia.
  rewrite (filter_all _ xs), (filter_none _ xs) by forall_lia.
  by rewrite <-app_assoc.
Qed.

Lemma ins_list_eq xs a ys :
  Forall (fun x => x < a) xs -> Forall (fun y => a < y) ys ->
  ins_list a (xs ++ a :: ys) = xs ++ a :: ys.
Proof.
  intros Hxs Hys. unfold ins_list.
  rewrite !filter_app, !(filter_cons_False _ a) by lia.
  rewrite (filter_all _ xs), (filter_none _ xs) by forall_lia.
  rewrite (filter_none _ ys), (filter_all _ ys) by forall_lia.
  by rewrite app_nil_r.
Qed.

Lemma del_list_lt v xs a ys :
  v < a -> Forall (fun y => a < y) ys ->
  del_list v (xs ++ a :: ys) = del_list v xs ++ a :: ys.
Proof.
  intros Hv Hys. unfold del_list.
  rewrite !filter_app, (filter_cons_True _ a) by lia.
  by rewrite (filter_all _ ys) by forall_lia.
Qed.

Lemma del_list_gt v xs a ys :
  a < v -> Forall (fun x => x < a) xs ->
  del_list v (xs ++ a :: ys) = xs ++ a :: del_list v ys.
Proof.
  intros Hv Hxs. unfold del_list.
  rewrite !filter_app, (filter_cons_True _ a) by lia.
  by rewrite (filter_all _ xs) by forall_lia.
Qed.

Lemma del_list_eq xs a ys :
  Forall (fun x => x < a) xs -> Forall (fun y => a < y) ys ->
  del_list a (xs ++ a :: ys) = xs ++ ys.
Proof.
  intros Hxs Hys. unfold del_list.
  rewrite !filter_app, (filter_cons_False _ a) by lia.
  by rewrite (filter_all _ xs), (filter_all _ ys) by forall_lia.
Qed.

Lemma elem_of_ins_list x v xs : x ∈ ins_list v xs <-> x = v \/ x ∈ xs.
Proof.
  unfold ins_list.
  rewrite elem_of_app, elem_of_cons, !list_elem_of_filter.
  destruct (decide (x = v)); [tauto|].
  split; [tauto|]. intros [?|?]; [done|].
  destruct (decide (x < v)); [tauto|]. right. right. split; [lia|done].
Qed.

Lemma elem_of_del_list x v xs : x ∈ del_list v xs <-> x <> v /\ x ∈ xs.
Proof. unfold del_list. by rewrite list_elem_of_filter. Qed.

Lemma sorted_filter (P : Z -> Prop) `{!forall x, Decision (P x)} xs :
  sorted xs -> sorted (filter P xs).
Proof.
  unfold sorted. induction 1 as [|x xs Hs IH Hx]; [constructor|].
  rewrite filter_cons. destruct (decide (P x)); [|done].
  constructor; [done|].
  apply Forall_forall. intros y [_ Hy]%list_elem_of_filter.
  rewrite Forall_forall in Hx. by apply Hx.
Qed.

Lemma sorted_ins_list v xs : sorted xs -> sorted (ins_list v xs).
Proof.
  intros Hs. unfold ins_list. apply sorted_node.
  repeat split; try by apply sorted_filter.
  - apply Forall_forall. by intros x [? _]%list_elem_of_filter.
  - apply Forall_forall. by intros x [? _]%list_elem_of_filter.
Qed.

Lemma sorted_del_list v xs : sorted xs -> sorted (del_list v xs).
Proof. apply sorted_filter. Qed.

Lemma ins_list_present v xs : sorted xs -> v ∈ xs -> ins_list v xs = xs.
Proof.
  intros Hs Hin. apply list_elem_of_split in Hin as (l1 & l2 & ->).
  apply sorted_node in Hs as (_ & _ & H1 & H2). by apply ins_list_eq.
Qed.

Lemma del_list_absent v xs : v ∉ xs -> del_list v xs = xs.
Proof.
  intros Hin. apply filter_all, Forall_forall. intros x Hx ->. done.
Qed.

(** ** What [Insert] and [Erase] do to the sequence of values *)

Lemma vals_Insert t v s c s' :
  sorted (vals t) -> Insert t v s = (c, s') -> vals c = ins_list v (vals t).
Proof.
  revert s c s'. induction t as [|a x lv p l IHl r IHr]; intros s c s' Hs H.
  - simpl in H. minv. done.
  - simpl in Hs. apply sorted_node in Hs as (Hl & Hr & Hlx & Hxr).
    simpl in H. minv.
    apply vals_Split in H. apply vals_Skew in E1. rewrite H, E1. simpl.
    destruct (Z.ltb_spec v x) as [Hvx|Hvx].
    + destruct (Z.ltb_spec x v); [lia|]. minv.
      match goal with H : Insert l _ _ = _ |- _ => apply IHl in H; [|done] end.
      rewrite vals_set_parent. by rewrite ins_list_lt; [f_equal|..].
    + destruct (Z.ltb_spec x v) as [Hxv|Hxv]; minv.
      * match goal with H : Insert r _ _ = _ |- _ => apply IHr in H; [|done] end.
        rewrite vals_set_parent. by rewrite ins_list_gt; [do 2 f_equal|..].
      * assert (v = x) as -> by lia. by rewrite ins_list_eq.
Qed.

Lemma vals_leftmost r :
  r <> nullptr ->
  exists a v lv p rr ys, leftmost r = Node a v lv p nullptr rr /\ vals r = v :: ys.
Proof.
  induction r as [|a x lv p l IHl r IHr]; [done|]. intros _.
  destruct l as [|la lx llv lp ll lr]; [simpl; by repeat eexists|].
  destruct IHl as (a'&v'&lv'&p'&rr'&ys&E&Ev); [done|].
  exists a', v', lv', p', rr', (ys ++ x :: vals r).
  split; [exact E|]. simpl in *. by rewrite Ev.
Qed.

Lemma vals_rightmost l :
  l <> nullptr ->
  exists a v lv p ll xs, rightmost l = Node a v lv p ll nullptr /\ vals l = xs ++ [v].
Proof.
  induction l as [|a x lv p l IHl r IHr]; [done|]. intros _.
  destruct r as [|ra rx rlv rp rl rr]; [simpl; by repeat eexists|].
  destruct IHr as (a'&v'&lv'&p'&ll'&xs&E&Ev); [done|].
  exists a', v', lv', p', ll', (vals l ++ x :: xs).
  split; [exact E|]. simpl in *. by rewrite Ev, <-app_assoc.
Qed.

Lemma vals_Erase t v s c s' :
  sorted (vals t) -> Erase t v s = (c, s') -> vals c = del_list v (vals t).
Proof.
  revert v s c s'. induction t as [|a x lv p l IHl r IHr]; intros v s c s' Hs H.
  - simpl in H. minv. done.
  - simpl in Hs. pose proof Hs as Hs0.
    apply sorted_node in Hs as (Hl & Hr & Hlx & Hxr).
    simpl in H. simpl vals.
    destruct (Z.ltb_spec v x) as [Hvx|Hvx].
    { minv. apply vals_Erase_fixup in H.
      match goal with H : Erase l _ _ = _ |- _ => apply IHl in H as E'; [|done] end.
      rewrite H. simpl. by rewrite vals_set_parent, E', del_list_lt. }
    destruct (Z.ltb_spec x v) as [Hxv|Hxv].
    { minv. apply vals_Erase_fixup in H.
      match goal with H : Erase r _ _ = _ |- _ => apply IHr in H as E'; [|done] end.
      rewrite H. simpl. by rewrite vals_set_parent, E', del_list_gt. }
    assert (v = x) as -> by lia.
    rewrite (del_list_eq (vals l) x (vals r)) by done.
    destruct l as [|la lx llv lp ll lr].
    + destruct r as [|ra rx rlv rp rl rr]; [simpl in H; minv; done|].
      destruct (vals_leftmost (Node ra rx rlv rp rl rr))
        as (a'&v'&lv'&p'&rr'&ys&E&Ev); [done|].
      change (IsLeaf _) with false in H. cbv iota in H.
      change (Successor _) with (leftmost (Node ra rx rlv rp rl rr)) in H.
      rewrite E in H. minv.
      apply vals_Erase_fixup in H.
      match goal with H : Erase _ _ _ = _ |- _ => apply IHr in H as E'; [|done] end.
      rewrite H. simpl vals at 1. rewrite vals_set_parent, E', Ev.
      rewrite Ev in Hr. apply (sorted_node []) in Hr as (_ & _ & _ & Hys).
      change (v' :: ys) with ([] ++ v' :: ys) at 1.
      by rewrite (del_list_eq [] v' ys).
    + destruct (vals_rightmost (Node la lx llv lp ll lr))
        as (a'&v'&lv'&p'&ll'&xs&E&Ev); [done|].
      change (IsLeaf _) with false in H. cbv iota in H.
      change (Predecessor _) with (rightmost (Node la lx llv lp ll lr)) in H.
      rewrite E in H. minv.
      apply vals_Erase_fixup in H.
      match goal with H : Erase _ _ _ = _ |- _ => apply IHl in H as E'; [|done] end.
      rewrite H. simpl vals at 1. rewrite vals_set_parent, E', Ev.
      rewrite Ev in Hl. apply sorted_node in Hl as (_ & _ & Hxs & _).
      rewrite (del_list_eq xs v' []) by done.
      by rewrite app_nil_r, <-app_assoc.
Qed.

(** ** The number of nodes and [Size_] *)

Lemma count_vals t : count t = length (vals t).
Proof.
  induction t as [|a x lv p l IHl r IHr]; [done|].
  simpl. rewrite length_app. simpl. lia.
Qed.

Lemma count_set_parent p t : count (set_parent p t) = count t.
Proof. by destruct t. Qed.

Lemma Skew_Size t s c s' : Skew t s = (c, s') -> Size_ s' = Size_ s.
Proof.
  intros H. apply Skew_cases in H as [[_ ->]|H]; [done|].
  by destruct H as (?&?&?&?&?&?&?&?&?&?&_&_&->).
Qed.

Lemma Split_Size t s c s' : Split t s = (c, s') -> Size_ s' = Size_ s.
Proof.
  intros H. apply Split_cases in H as [[_ ->]|H]; [done|].
  by destruct H as (?&?&?&?&?&?&?&?&?&?&?&?&?&?&?&_&_&->).
Qed.

Lemma on_RightNode_Size f t s c s' :
  (forall r u r' u', f r u = (r', u') -> Size_ u' = Size_ u) ->
  on_RightNode f t s = (c, s') -> Size_ s' = Size_ s.
Proof.
  intros Hf. destruct t as [|a v lv p l r]; simpl; intros H; minv; [done|].
  eauto.
Qed.

Lemma Erase_fixup_Size t s c s' : Erase_fixup t s = (c, s') -> Size_ s' = Size_ s.
Proof.
  unfold Erase_fixup. intros H. minv.
  apply on_RightNode_Size in H; [|apply Split_Size].
  match goal with H : Split _ _ = _ |- _ => apply Split_Size in H end.
  match goal with H : Skew _ _ = _ |- _ => apply Skew_Size in H end.
  match goal with H : on_RightNode Skew _ _ = _ |- _ =>
    apply on_RightNode_Size in H; [|apply Skew_Size] end.
  match goal with H : on_RightNode _ _ _ = _ |- _ =>
    apply on_RightNode_Size in H end.
  2:{ intros r u r' u'. destruct r; [simpl; intros Hr; by minv|].
      apply on_RightNode_Size, Skew_Size. }
  congruence.
Qed.

Lemma size_t_succ k x : x = size_t k -> size_t (x + 1) = size_t (k + 1).
Proof. intros ->. unfold size_t. by rewrite Zplus_mod_idemp_l. Qed.

Lemma size_t_pred k x : x = size_t k -> size_t (x - 1) = size_t (k - 1).
Proof. intros ->. unfold size_t. by rewrite Zminus_mod_idemp_l. Qed.

Lemma Insert_Size t v s c s' k :
  Size_ s = size_t k -> Insert t v s = (c, s') ->
  Size_ s' = size_t (k + Z.of_nat (count c) - Z.of_nat (count t)).
Proof.
  revert s c s' k. induction t as [|a x lv p l IHl r IHr]; intros s c s' k Hk H.
  - simpl in H. unfold incr_Size, new in H. minv.
    repeat match goal with H : (_, _) = (_, _) |- _ => injection H as <- <- end.
    simpl. erewrite size_t_succ by done. f_equal. lia.
  - simpl in H. minv.
    apply Split_Size in H as HS. apply vals_Split in H.
    match goal with H : Skew _ _ = _ |- _ =>
      apply Skew_Size in H as HS'; apply vals_Skew in H as HV end.
    rewrite HS, HS'. rewrite !count_vals, H, HV, <-!count_vals. simpl count.
    destruct (x <? v), (v <? x); minv.
    + match goal with H : Insert l _ _ = _, H' : Insert r _ _ = _ |- _ =>
        eapply IHl in H; [|done]; eapply IHr in H'; [|done]; rewrite H' end.
      rewrite !count_set_parent. f_equal. lia.
    + match goal with H : Insert r _ _ = _ |- _ =>
        eapply IHr in H; [|done]; rewrite H end.
      rewrite !count_set_parent. f_equal. lia.
    + match goal with H : Insert l _ _ = _ |- _ =>
        eapply IHl in H; [|done]; rewrite H end.
      rewrite !count_set_parent. f_equal. lia.
    + rewrite Hk. f_equal. lia.
Qed.

Lemma Erase_Size t v s c s' k :
  Size_ s = size_t k -> Erase t v s = (c, s') ->
  Size_ s' = size_t (k + Z.of_nat (count c) - Z.of_nat (count t)).
Proof.
  revert v s c s' k. induction t as [|a x lv p l IHl r IHr]; intros v s c s' k Hk H.
  - simpl in H. minv. rewrite Hk. f_equal. lia.
  - assert (Hfix : forall c1 s1 n,
               Size_ s1 = size_t (k + Z.of_nat n - Z.of_nat (count (Node a x lv p l r))) ->
               count c1 = n ->
               Erase_fixup c1 s1 = (c, s') ->
               Size_ s' = size_t (k + Z.of_nat (count c) - Z.of_nat (count (Node a x lv p l r)))).
    { intros c1 s1 n Hs1 Hn Hf. rewrite (Erase_fixup_Size _ _ _ _ Hf).
      apply vals_Erase_fixup in Hf. rewrite Hs1. do 3 f_equal.
      by rewrite <-Hn, !count_vals, Hf. }
    simpl in H.
    destruct (v <? x).
    { minv. eapply Hfix; [|done|exact H].
      match goal with H : Erase l _ _ = _ |- _ => eapply IHl in H; [|done]; rewrite H end.
      simpl count. rewrite count_set_parent. f_equal. lia. }
    destruct (x <? v).
    { minv. eapply Hfix; [|done|exact H].
      match goal with H : Erase r _ _ = _ |- _ => eapply IHr in H; [|done]; rewrite H end.
      simpl count. rewrite count_set_parent. f_equal. lia. }
    destruct l as [|la lx llv lp ll lr].
    + destruct r as [|ra rx rlv rp rl rr].
      * simpl in H. unfold decr_Size in H. minv.
        match goal with H : (_, _) = (_, _) |- _ => injection H as <- <- end.
        simpl. erewrite size_t_pred by done. f_equal. lia.
      * destruct (leftmost _) as [|? sv ? ? ? ?]; minv.
        { rewrite Hk. f_equal. lia. }
        eapply Hfix; [|done|exact H].
        match goal with H : Erase _ _ _ = _ |- _ => eapply IHr in H; [|done]; rewrite H end.
        simpl count. rewrite count_set_parent. f_equal. lia.
    + destruct (rightmost _) as [|? pv ? ? ? ?]; minv.
      { rewrite Hk. f_equal. lia. }
      eapply Hfix; [|done|exact H].
      match goal with H : Erase _ _ _ = _ |- _ => eapply IHl in H; [|done]; rewrite H end.
      simpl count. rewrite count_set_parent. f_equal. lia.
Qed.

(** ** Parent back-references *)

Lemma parents_ok_set_parent q p t :
  parents_ok q t -> parents_ok p (set_parent p t).
Proof. destruct t; simpl; [done|]. tauto. Qed.

Lemma Skew_parents p t s c s' :
  parents_ok p t -> Skew t s = (c, s') -> parents_ok p c.
Proof.
  intros Hp H. apply Skew_cases in H as [[-> _]|H]; [done|].
  destruct H as (a0&dv&lv&dprev&b0&bv&bprev&A&C&F&->&->&_).
  simpl in *. destruct Hp as (-> & (_ & HA & HC) & HF).
  eauto 10 using parents_ok_set_parent.
Qed.

Lemma Split_parents p t s c s' :
  parents_ok p t -> Split t s = (c, s') -> parents_ok p c.
Proof.
  intros Hp H. apply Split_cases in H as [[-> _]|H]; [done|].
  destruct H as (a0&bv&lv&bprev&A&c0&cv&clv&cprev&D&e0&ev&eprev&El&Er&->&->&_).
  simpl in *. destruct Hp as (-> & HA & (_ & HD & (_ & HEl & HEr))).
  eauto 10 using parents_ok_set_parent.
Qed.

Lemma DecreaseLevel_parents p t : parents_ok p t -> parents_ok p (DecreaseLevel t).
Proof.
  destruct t as [|a v lv q [|la lv' llv lp ll lr] [|ra rv rlv rp rl rr]]; simpl; try done.
  repeat case_match; simpl; tauto.
Qed.

Lemma on_RightNode_parents f p t s c s' :
  (forall q r u r' u', parents_ok q r -> f r u = (r', u') -> parents_ok q r') ->
  parents_ok p t -> on_RightNode f t s = (c, s') -> parents_ok p c.
Proof.
  intros Hf. destruct t as [|a v lv q l r]; simpl; intros Hp H; minv; [done|].
  simpl. destruct Hp as (? & ? & ?). eauto.
Qed.

Lemma Erase_fixup_parents p t s c s' :
  parents_ok p t -> Erase_fixup t s = (c, s') -> parents_ok p c.
Proof.
  unfold Erase_fixup. intros Hp H. minv.
  eapply on_RightNode_parents; [| |exact H]; [intros; by eapply Split_parents|].
  eapply Split_parents; [|eassumption].
  eapply on_RightNode_parents; [| |eassumption].
  { intros q r u r' u' Hq. destruct r; [simpl; intros Hr; by minv|].
    intros Hr. eapply on_RightNode_parents; [| |exact Hr]; [|done].
    intros; by eapply Skew_parents. }
  eapply on_RightNode_parents; [| |eassumption]; [intros; by eapply Skew_parents|].
  eapply Skew_parents; [|eassumption].
  by apply DecreaseLevel_parents.
Qed.

Lemma Insert_parents p t v s c s' :
  parents_ok p t -> Insert t v s = (c, s') ->
  parents_ok (match t with nullptr => None | _ => p end) c.
Proof.
  revert p s c s'. induction t as [|a x lv q l IHl r IHr]; intros p s c s' Hp H.
  - simpl in H. minv. done.
  - simpl in H. minv. destruct Hp as (-> & Hl & Hr).
    eapply Split_parents; [|eassumption].
    eapply Skew_parents; [|eassumption].
    simpl. split; [done|].
    destruct (v <? x), (x <? v); minv;
      repeat match goal with
      | H : Insert l _ _ = _ |- _ => eapply IHl in H; [|eassumption]
      | H : Insert r _ _ = _ |- _ => eapply IHr in H; [|eassumption]
      end; eauto using parents_ok_set_parent.
Qed.

Lemma Erase_parents p t v s c s' :
  parents_ok p t -> Erase t v s = (c, s') -> parents_ok p c.
Proof.
  revert p v s c s'.
  induction t as [|a x lv q l IHl r IHr]; intros p v s c s' Hp H.
  - simpl in H. minv. done.
  - pose proof Hp as Hp0. destruct Hp as (-> & Hl & Hr).
    simpl in H. destruct (v <? x).
    { minv. eapply Erase_fixup_parents; [|eassumption].
      simpl. eauto using parents_ok_set_parent. }
    destruct (x <? v).
    { minv. eapply Erase_fixup_parents; [|eassumption].
      simpl. eauto using parents_ok_set_parent. }
    destruct l as [|la lx llv lp ll lr].
    + destruct r as [|ra rx rlv rp rl rr]; [simpl in H; by minv|].
      destruct (leftmost _) as [|? sv ? ? ? ?]; minv; [done|].
      eapply Erase_fixup_parents; [|eassumption].
      simpl. eauto using parents_ok_set_parent.
    + destruct (rightmost _) as [|? pv ? ? ? ?]; minv; [done|].
      eapply Erase_fixup_parents; [|eassumption].
      simpl. eauto using parents_ok_set_parent.
Qed.

(** ** Addresses *)

Lemma live_set_parent p t : live (set_parent p t) = live t.
Proof. by destruct t. Qed.

Lemma uniq_set_parent p t : uniq (set_parent p t) <-> uniq t.
Proof. by destruct t. Qed.

Lemma alloc_rel_refl t s : alloc_rel t s t s.
Proof. unfold alloc_rel. naive_solver. Qed.

Lemma alloc_rel_below t s c s' :
  alloc_rel t s c s' -> below (next_addr s) t -> below (next_addr s') c.
Proof.
  intros (Hle & Hsub & _) Hb a Ha.
  destruct (Hsub a Ha) as [Hin|?]; [|lia]. specialize (Hb a Hin). lia.
Qed.

Lemma alloc_rel_trans t s c s' d s'' :
  alloc_rel t s c s' -> alloc_rel c s' d s'' -> alloc_rel t s d s''.
Proof.
  intros H1 H2. pose proof (alloc_rel_below _ _ _ _ H1) as Hb.
  destruct H1 as (Hle1 & Hsub1 & Hu1), H2 as (Hle2 & Hsub2 & Hu2).
  split; [lia|]. split; [|by auto].
  intros a Ha. destruct (Hsub2 a Ha) as [Hin|?]; [|right; lia].
  destruct (Hsub1 a Hin) as [?|?]; [by left|right; lia].
Qed.

Lemma alloc_rel_live_eq t c s :
  live c = live t -> (uniq t -> uniq c) -> alloc_rel t s c s.
Proof. intros Hl Hu. unfold alloc_rel. rewrite Hl. naive_solver. Qed.

Lemma below_node n a v lv p l r :
  below n (Node a v lv p l r) <-> (a < n)%nat /\ below n l /\ below n r.
Proof.
  unfold below. simpl. split.
  - intros H. repeat split; intros; apply H; set_solver.
  - intros (Ha & Hl & Hr) b. rewrite !elem_of_union, elem_of_singleton.
    intros [[->|?]|?]; auto.
Qed.

Lemma alloc_rel_set_parent q t s c s' :
  alloc_rel t s c s' -> alloc_rel t s (set_parent q c) s'.
Proof. unfold alloc_rel. by rewrite live_set_parent, uniq_set_parent. Qed.

Lemma alloc_rel_left a v lv p l r v' lv' p' l' s s' :
  alloc_rel l s l' s' ->
  alloc_rel (Node a v lv p l r) s (Node a v' lv' p' l' r) s'.
Proof.
  intros (Hle & Hsub & Hu). split; [done|]. split.
  - simpl. intros b.
    rewrite !elem_of_union. intros [[?|Hb]|?]; [tauto| |tauto].
    destruct (Hsub b Hb); tauto.
  - simpl.
    intros (Hal & Har & Hlr & Hul & Hur) (Ha & Hbl & Hbr)%below_node.
    repeat split; [| done | | by auto | done].
    + intros Hin. destruct (Hsub _ Hin) as [?|?]; [done|lia].
    + intros b Hbl' Hb. destruct (Hsub _ Hbl') as [?|?]; [by apply (Hlr b)|].
      specialize (Hbr b Hb). lia.
Qed.

Lemma alloc_rel_right a v lv p l r v' lv' p' r' s s' :
  alloc_rel r s r' s' ->
  alloc_rel (Node a v lv p l r) s (Node a v' lv' p' l r') s'.
Proof.
  intros (Hle & Hsub & Hu). split; [done|]. split.
  - simpl. intros b.
    rewrite !elem_of_union. intros [[?|?]|Hb]; [tauto|tauto|].
    destruct (Hsub b Hb); tauto.
  - simpl.
    intros (Hal & Har & Hlr & Hul & Hur) (Ha & Hbl & Hbr)%below_node.
    repeat split; [done | | | done | by auto].
    + intros Hin. destruct (Hsub _ Hin) as [?|?]; [done|lia].
    + intros b Hb Hbr'. destruct (Hsub _ Hbr') as [?|?]; [by apply (Hlr b)|].
      specialize (Hbl b Hb). lia.
Qed.

Lemma Skew_alloc t s c s' : Skew t s = (c, s') -> alloc_rel t s c s'.
Proof.
  intros H. apply Skew_cases in H as [[-> ->]|H]; [apply alloc_rel_refl|].
  destruct H as (a0&dv&lv&dprev&b0&bv&bprev&A&C&F&->&->&->).
  split; [simpl; lia|]. split.
  - simpl. rewrite !live_set_parent. intros a.
    rewrite !elem_of_union, !elem_of_singleton. intros H.
    destruct (decide (a = next_addr s)); [right; lia|].
    destruct (decide (a = S (next_addr s))); [right; lia|].
    left. tauto.
  - simpl. rewrite !live_set_parent, !uniq_set_parent.
    intros (Ha0B & Ha0F & HBF & (Hb0A & Hb0C & HAC & HuA & HuC) & HuF).
    intros (_ & (_ & HbA & HbC)%below_node & HbF)%below_node.
    assert (forall x X, below (next_addr s) X -> (next_addr s <= x)%nat -> x ∉ live X) as Hfresh.
    { intros x X HX Hx Hin. specialize (HX x Hin). lia. }
    repeat split; try done.
    + by apply Hfresh.
    + rewrite !not_elem_of_union, not_elem_of_singleton.
      repeat split; [lia|by apply Hfresh..].
    + intros x HxA Hx. rewrite !elem_of_union, elem_of_singleton in Hx.
      destruct Hx as [[->|?]|?].
      * specialize (HbA _ HxA). lia.
      * by apply (HAC x).
      * apply (HBF x); [|done]. rewrite !elem_of_union. tauto.
    + apply Hfresh; [done|lia].
    + apply Hfresh; [done|lia].
    + intros x HxC. apply (HBF x). rewrite !elem_of_union. tauto.
Qed.

Lemma Split_alloc t s c s' : Split t s = (c, s') -> alloc_rel t s c s'.
Proof.
  intros H. apply Split_cases in H as [[-> ->]|H]; [apply alloc_rel_refl|].
  destruct H as (a0&bv&lv&bprev&A&c0&cv&clv&cprev&D&e0&ev&eprev&El&Er&->&->&->).
  change (Node e0 ev lv (Some (next_addr s)) El Er)
    with (set_parent (Some (next_addr s)) (Node e0 ev lv eprev El Er)).
  generalize (Node e0 ev lv eprev El Er). intros E.
  split; [simpl; lia|]. split.
  - simpl. rewrite !live_set_parent. intros a.
    rewrite !elem_of_union, !elem_of_singleton. intros H.
    destruct (decide (a = next_addr s)); [right; lia|].
    destruct (decide (a = S (next_addr s))); [right; lia|].
    left. tauto.
  - simpl. rewrite !live_set_parent, !uniq_set_parent.
    intros (Ha0A & Ha0C & HAC & HuA & (Hc0D & Hc0E & HDE & HuD & HuE)).
    intros (_ & HbA & (_ & HbD & HbE)%below_node)%below_node.
    assert (forall x X, below (next_addr s) X -> (next_addr s <= x)%nat -> x ∉ live X) as Hfresh.
    { intros x X HX Hx Hin. specialize (HX x Hin). lia. }
    repeat split; try done.
    + rewrite !not_elem_of_union, not_elem_of_singleton.
      repeat split; [lia|by apply Hfresh..].
    + by apply Hfresh.
    + intros x Hx HxE. rewrite !elem_of_union, elem_of_singleton in Hx.
      destruct Hx as [[->|?]|?].
      * specialize (HbE _ HxE). lia.
      * apply (HAC x); [done|]. rewrite !elem_of_union. tauto.
      * by apply (HDE x).
    + apply Hfresh; [done|lia].
    + apply Hfresh; [done|lia].
    + intros x HxA HxD. apply (HAC x); [done|]. rewrite !elem_of_union. tauto.
Qed.

Lemma DecreaseLevel_alloc t s : alloc_rel t s (DecreaseLevel t) s.
Proof.
  apply alloc_rel_live_eq;
    destruct t as [|a v lv q [|la lv' llv lp ll lr] [|ra rv rlv rp rl rr]]; simpl; try done;
    repeat case_match; done.
Qed.

Lemma on_RightNode_alloc f t s c s' :
  (forall r u r' u', f r u = (r', u') -> alloc_rel r u r' u') ->
  on_RightNode f t s = (c, s') -> alloc_rel t s c s'.
Proof.
  intros Hf. destruct t as [|a v lv p l r]; simpl; intros H; minv;
    [apply alloc_rel_refl|].
  apply alloc_rel_right. eauto.
Qed.

Lemma Erase_fixup_alloc t s c s' : Erase_fixup t s = (c, s') -> alloc_rel t s c s'.
Proof.
  unfold Erase_fixup. intros H. minv.
  eapply alloc_rel_trans; [apply DecreaseLevel_alloc|].
  eapply alloc_rel_trans; [by eapply Skew_alloc|].
  eapply alloc_rel_trans;
    [eapply on_RightNode_alloc; [|eassumption]; apply Skew_alloc|].
  eapply alloc_rel_trans; [eapply on_RightNode_alloc; [|eassumption]|].
  { intros r u r' u'. destruct r; [simpl; intros Hr; minv; apply alloc_rel_refl|].
    apply on_RightNode_alloc, Skew_alloc. }
  eapply alloc_rel_trans; [by eapply Split_alloc|].
  eapply on_RightNode_alloc; [|eassumption]. apply Split_alloc.
Qed.

Lemma Insert_alloc t v s c s' : Insert t v s = (c, s') -> alloc_rel t s c s'.
Proof.
  revert s c s'. induction t as [|a x lv p l IHl r IHr]; intros s c s' H.
  - simpl in H. unfold incr_Size, new in H. minv.
    repeat match goal with H : (_, _) = (_, _) |- _ => injection H as <- <- end.
    split; [simpl; lia|]. split.
    + simpl. intros b. rewrite !elem_of_union, elem_of_singleton.
      intros [[->|[]%elem_of_empty]|[]%elem_of_empty]. right. lia.
    + intros _ _. simpl. set_solver.
  - simpl in H. minv.
    eapply alloc_rel_trans; [|by eapply Split_alloc].
    eapply alloc_rel_trans; [|by eapply Skew_alloc].
    eapply alloc_rel_trans;
      [apply (alloc_rel_left _ _ _ _ _ _ x lv p)|apply alloc_rel_right].
    + destruct (v <? x); minv; [|apply alloc_rel_refl].
      apply alloc_rel_set_parent. eauto.
    + destruct (x <? v); minv; [|apply alloc_rel_refl].
      apply alloc_rel_set_parent. eauto.
Qed.

Lemma alloc_rel_nullptr t s s' :
  (next_addr s <= next_addr s')%nat -> alloc_rel t s nullptr s'.
Proof.
  split; [done|]. split; [|done]. simpl. intros a []%elem_of_empty.
Qed.

Lemma Erase_alloc t v s c s' : Erase t v s = (c, s') -> alloc_rel t s c s'.
Proof.
  revert v s c s'. induction t as [|a x lv p l IHl r IHr]; intros v s c s' H.
  - simpl in H. minv. apply alloc_rel_refl.
  - simpl in H. destruct (v <? x).
    { minv. eapply alloc_rel_trans; [|by eapply Erase_fixup_alloc].
      apply alloc_rel_left, alloc_rel_set_parent. eauto. }
    destruct (x <? v).
    { minv. eapply alloc_rel_trans; [|by eapply Erase_fixup_alloc].
      apply alloc_rel_right, alloc_rel_set_parent. eauto. }
    destruct l as [|la lx llv lp ll lr].
    + destruct r as [|ra rx rlv rp rl rr].
      { simpl in H. unfold decr_Size in H. minv.
        match goal with H : (_, _) = (_, _) |- _ => injection H as <- <- end.
        by apply alloc_rel_nullptr. }
      destruct (leftmost _) as [|? sv ? ? ? ?]; minv; [apply alloc_rel_refl|].
      eapply alloc_rel_trans; [|by eapply Erase_fixup_alloc].
      apply alloc_rel_right, alloc_rel_set_parent. eauto.
    + destruct (rightmost _) as [|? pv ? ? ? ?]; minv; [apply alloc_rel_refl|].
      eapply alloc_rel_trans; [|by eapply Erase_fixup_alloc].
      apply alloc_rel_left, alloc_rel_set_parent. eauto.
Qed.

(** ** The invariant of reachable states *)

Lemma insert_unfold v s :
  exists r s', Insert (Root_ s) v s = (r, s') /\
               insert v s = mkStore r (Size_ s') (next_addr s').
Proof. unfold insert. destruct (Insert _ _ _) as [r s']. eauto. Qed.

Lemma erase_unfold v s :
  exists r s', Erase (Root_ s) v s = (r, s') /\
               erase v s = mkStore r (Size_ s') (next_addr s').
Proof. unfold erase. destruct (Erase _ _ _) as [r s']. eauto. Qed.

Lemma contents_insert v s :
  sorted (contents s) -> contents (insert v s) = ins_list v (contents s).
Proof.
  intros Hs. destruct (insert_unfold v s) as (r & s' & E & ->).
  unfold contents. simpl. by eapply vals_Insert.
Qed.

Lemma contents_erase v s :
  sorted (contents s) -> contents (erase v s) = del_list v (contents s).
Proof.
  intros Hs. destruct (erase_unfold v s) as (r & s' & E & ->).
  unfold contents. simpl. by eapply vals_Erase.
Qed.

Lemma wf_empty_set : wf empty_set.
Proof.
  split; simpl; try done.
  constructor.
Qed.

Lemma wf_insert v s : wf s -> wf (insert v s).
Proof.
  intros [Hs Hp Hu Hb HS].
  destruct (insert_unfold v s) as (r & s' & E & ->).
  pose proof (Insert_alloc _ _ _ _ _ E) as Ha.
  split; simpl.
  - erewrite vals_Insert by done. by apply sorted_ins_list.
  - apply (Insert_parents None) in E; [|done]. by destruct (Root_ s).
  - by apply Ha.
  - by eapply alloc_rel_below.
  - erewrite Insert_Size by done. f_equal. lia.
Qed.

Lemma wf_erase v s : wf s -> wf (erase v s).
Proof.
  intros [Hs Hp Hu Hb HS].
  destruct (erase_unfold v s) as (r & s' & E & ->).
  pose proof (Erase_alloc _ _ _ _ _ E) as Ha.
  split; simpl.
  - erewrite vals_Erase by done. by apply sorted_del_list.
  - by eapply Erase_parents.
  - by apply Ha.
  - by eapply alloc_rel_below.
  - erewrite Erase_Size by done. f_equal. lia.
Qed.

Lemma run_snoc ops o s : run (ops ++ [o]) s = apply_op (run ops s) o.
Proof. unfold run. by rewrite fold_left_app. Qed.

Lemma wf_run ops s : wf s -> wf (run ops s).
Proof.
  revert s. induction ops as [|o ops IH]; intros s Hs; [done|].
  simpl. apply IH. destruct o; [by apply wf_insert|by apply wf_erase].
Qed.

Lemma reachable_wf s : reachable s -> wf s.
Proof. intros [ops ->]. apply wf_run, wf_empty_set. Qed.

Lemma reachable_empty_set : reachable empty_set.
Proof. by exists []. Qed.

Lemma reachable_apply_op s o : reachable s -> reachable (apply_op s o).
Proof. intros [ops ->]. exists (ops ++ [o]). by rewrite run_snoc. Qed.

(** ** Following addresses in a tree without shared addresses *)

Lemma node_of_refl a v lv p l r : node_of (Node a v lv p l r) (Node a v lv p l r).
Proof. simpl. by left. Qed.

Lemma node_of_trans n m t : node_of n m -> node_of m t -> node_of n t.
Proof.
  intros Hn. induction t as [|a v lv p l IHl r IHr]; [done|].
  simpl. intros [->|[?|?]]; [done|tauto..].
Qed.

Lemma node_of_left a v lv p l r t :
  node_of (Node a v lv p l r) t -> l <> nullptr -> node_of l t.
Proof.
  intros H Hl. eapply node_of_trans; [|exact H].
  destruct l; [done|]. simpl. right. left. by left.
Qed.

Lemma node_of_right a v lv p l r t :
  node_of (Node a v lv p l r) t -> r <> nullptr -> node_of r t.
Proof.
  intros H Hr. eapply node_of_trans; [|exact H].
  destruct r; [done|]. simpl. right. right. by left.
Qed.

Lemma node_of_live a v lv p l r t : node_of (Node a v lv p l r) t -> a ∈ live t.
Proof.
  induction t as [|b w lw q L IHL R IHR]; [done|].
  simpl. rewrite !elem_of_union, elem_of_singleton.
  intros [[= -> _ _ _ _ _]|[?|?]]; tauto.
Qed.

Lemma node_at_None a t : a ∉ live t -> node_at a t = None.
Proof.
  induction t as [|b w lw q L IHL R IHR]; [done|].
  simpl. rewrite !not_elem_of_union, not_elem_of_singleton.
  intros [[? ?] ?]. rewrite decide_False by done. by rewrite IHL, IHR.
Qed.

Lemma node_at_node_of a v lv p l r t :
  uniq t -> node_of (Node a v lv p l r) t ->
  node_at a t = Some (Node a v lv p l r).
Proof.
  induction t as [|b w lw q L IHL R IHR]; [done|].
  simpl. intros (HbL & HbR & HLR & HuL & HuR) [E|[H|H]].
  - injection E as -> -> -> -> -> ->. by rewrite decide_True.
  - pose proof (node_of_live _ _ _ _ _ _ _ H) as Hin.
    rewrite decide_False by (intros ->; done). by rewrite IHL.
  - pose proof (node_of_live _ _ _ _ _ _ _ H) as Hin.
    rewrite decide_False by (intros ->; done).
    rewrite node_at_None by (intros ?; by apply (HLR a)). by apply IHR.
Qed.

(** ** The iterator steps *)

Lemma self_leftmost r : self_of (leftmost r) = head (addrs r).
Proof.
  induction r as [|a v lv p l IHl r IHr]; [done|].
  destruct l as [|la lx llv lp ll lr]; [done|].
  change (leftmost (Node a v lv p (Node la lx llv lp ll lr) r))
    with (leftmost (Node la lx llv lp ll lr)).
  rewrite IHl. simpl. by destruct (addrs ll).
Qed.

Lemma self_rightmost l : self_of (rightmost l) = last (addrs l).
Proof.
  induction l as [|a v lv p l IHl r IHr]; [done|].
  destruct r as [|ra rx rlv rp rl rr]; [simpl; by rewrite last_snoc|].
  change (rightmost (Node a v lv p l (Node ra rx rlv rp rl rr)))
    with (rightmost (Node ra rx rlv rp rl rr)).
  rewrite IHr. simpl addrs.
  by rewrite (last_app_cons (addrs l)), (last_app_cons (addrs rl)),
    app_comm_cons, last_app_cons.
Qed.

Lemma height_le_count t : (height t <= count t)%nat.
Proof. induction t; simpl; lia. Qed.

Lemma length_addrs t : length (addrs t) = count t.
Proof.
  induction t as [|a v lv p l IHl r IHr]; [done|].
  simpl. rewrite length_app. simpl. lia.
Qed.

Section steps.
Variable R : TNode.
Hypothesis R_uniq : uniq R.

(** One round of the ascent from a child of a node of [R]. *)
Lemma climb_inc_from_left a v lv p la lx llv ll lr r f :
  node_of (Node a v lv p (Node la lx llv (Some a) ll lr) r) R ->
  lx < v ->
  climb_inc (S f) R la = Some (Some a).
Proof.
  intros Hin Hlt. simpl.
  erewrite node_at_node_of by (done || by eapply node_of_left).
  simpl. erewrite node_at_node_of by done. simpl.
  by destruct (Z.ltb_spec v lx); [lia|].
Qed.

Lemma climb_inc_from_right a v lv p l ra rx rlv rl rr f :
  node_of (Node a v lv p l (Node ra rx rlv (Some a) rl rr)) R ->
  v < rx ->
  climb_inc (S f) R ra = climb_inc f R a.
Proof.
  intros Hin Hlt. simpl.
  erewrite node_at_node_of by (done || by eapply node_of_right).
  simpl. erewrite node_at_node_of by done. simpl.
  by destruct (Z.ltb_spec v rx); [|lia].
Qed.

Lemma climb_dec_from_left a v lv p la lx llv ll lr r f :
  node_of (Node a v lv p (Node la lx llv (Some a) ll lr) r) R ->
  lx < v ->
  climb_dec (S f) R la = climb_dec f R a.
Proof.
  intros Hin Hlt. simpl.
  erewrite node_at_node_of by (done || by eapply node_of_left).
  simpl. erewrite node_at_node_of by done. simpl.
  by destruct (Z.ltb_spec lx v); [|lia].
Qed.

Lemma climb_dec_from_right a v lv p l ra rx rlv rl rr f :
  node_of (Node a v lv p l (Node ra rx rlv (Some a) rl rr)) R ->
  v < rx ->
  climb_dec (S f) R ra = Some (Some a).
Proof.
  intros Hin Hlt. simpl.
  erewrite node_at_node_of by (done || by eapply node_of_right).
  simpl. erewrite node_at_node_of by done. simpl.
  by destruct (Z.ltb_spec rx v); [lia|].
Qed.

Lemma root_lt_of_Forall_l a x lv p l r v :
  Forall (fun y => y < v) (vals (Node a x lv p l r)) -> x < v.
Proof. simpl. rewrite Forall_app, Forall_cons. tauto. Qed.

Lemma root_gt_of_Forall_r a x lv p l r v :
  Forall (fun y => v < y) (vals (Node a x lv p l r)) -> v < x.
Proof. simpl. rewrite Forall_app, Forall_cons. tauto. Qed.

Lemma step_inc_spec t :
  forall p e k,
    (t <> nullptr -> node_of t R) ->
    parents_ok p t ->
    sorted (vals t) ->
    (forall a0, self_of t = Some a0 ->
       forall f, (k <= f)%nat -> climb_inc f R a0 = Some e) ->
    forall i x, addrs t !! i = Some x ->
    forall f, (k + height t <= f)%nat ->
      step_inc f R x
      = Some (match addrs t !! S i with Some y => Some y | None => e end).
Proof.
  induction t as [|a v lv q l IHl r IHr]; intros p e k Hin Hp Hs Hup i x Hi f Hf;
    [done|].
  specialize (Hin ltac:(done)).
  pose proof (node_at_node_of _ _ _ _ _ _ _ R_uniq Hin) as Hat.
  destruct Hp as (-> & Hpl & Hpr).
  simpl in Hs. apply sorted_node in Hs as (Hsl & Hsr & Hlv & Hvr).
  simpl in Hi, Hf |- *.
  apply lookup_app_Some in Hi as [Hi|[Hle Hi]].
  - (* in the left subtree *)
    assert (l <> nullptr) as Hl by (intros ->; done).
    assert (step_inc f R x
            = Some (match addrs l !! S i with Some y => Some y | None => Some a end))
      as ->.
    { eapply (IHl (Some a) (Some a) 1%nat); try done.
      - intros _. by eapply node_of_left.
      - intros a0 Ha0 f0 Hf0.
        destruct l as [|la lx llv lp ll lr]; [done|].
        injection Ha0 as ->. destruct Hpl as (-> & _).
        destruct f0 as [|f0]; [lia|].
        eapply climb_inc_from_left; [done|]. by eapply root_lt_of_Forall_l.
      - lia. }
    f_equal. apply lookup_lt_Some in Hi as Hlt.
    destruct (decide (S i < length (addrs l))%nat) as [Hlt'|Hge].
    + rewrite lookup_app_l by done.
      by destruct (lookup_lt_is_Some_2 (addrs l) (S i) Hlt') as [y ->].
    + rewrite lookup_app_r by lia.
      replace (S i - length (addrs l))%nat with 0%nat by lia.
      by rewrite (lookup_ge_None_2 (addrs l)) by lia.
  - destruct (i - length (addrs l))%nat as [|j] eqn:Ej.
    + (* the node itself *)
      injection Hi as <-.
      rewrite lookup_app_r by lia.
      replace (S i - length (addrs l))%nat with 1%nat by lia. simpl.
      unfold step_inc. rewrite Hat.
      destruct r as [|ra rx rlv rp rl rr].
      * simpl. rewrite (Hup a eq_refl) by lia. done.
      * change (Successor _) with (leftmost (Node ra rx rlv rp rl rr)).
        rewrite self_leftmost, <-head_lookup.
        simpl. by destruct (addrs rl).
    + (* in the right subtree *)
      simpl in Hi.
      assert (r <> nullptr) as Hr by (intros ->; done).
      rewrite lookup_app_r by lia.
      replace (S i - length (addrs l))%nat with (S (S j)) by lia. simpl.
      eapply (IHr (Some a) e (S k)); try done.
      * intros _. by eapply node_of_right.
      * intros a0 Ha0 f0 Hf0.
        destruct r as [|ra rx rlv rp rl rr]; [done|].
        injection Ha0 as ->. destruct Hpr as (-> & _).
        destruct f0 as [|f0]; [lia|].
        erewrite climb_inc_from_right;
          [|done|by eapply root_gt_of_Forall_r].
        apply (Hup a eq_refl). lia.
      * lia.
Qed.

Lemma step_dec_spec t :
  forall p e k,
    (t <> nullptr -> node_of t R) ->
    parents_ok p t ->
    sorted (vals t) ->
    (forall a0, self_of t = Some a0 ->
       forall f, (k <= f)%nat -> climb_dec f R a0 = Some e) ->
    forall i x, addrs t !! i = Some x ->
    forall f, (k + height t <= f)%nat ->
      step_dec f R x
      = Some (match i with O => e | S j => addrs t !! j end).
Proof.
  induction t as [|a v lv q l IHl r IHr]; intros p e k Hin Hp Hs Hup i x Hi f Hf;
    [done|].
  specialize (Hin ltac:(done)).
  pose proof (node_at_node_of _ _ _ _ _ _ _ R_uniq Hin) as Hat.
  destruct Hp as (-> & Hpl & Hpr).
  simpl in Hs. apply sorted_node in Hs as (Hsl & Hsr & Hlv & Hvr).
  simpl in Hi, Hf |- *.
  apply lookup_app_Some in Hi as [Hi|[Hle Hi]].
  - (* in the left subtree *)
    assert (l <> nullptr) as Hl by (intros ->; done).
    assert (step_dec f R x
            = Some (match i with O => e | S j => addrs l !! j end)) as ->.
    { eapply (IHl (Some a) e (S k)); try done.
      - intros _. by eapply node_of_left.
      - intros a0 Ha0 f0 Hf0.
        destruct l as [|la lx llv lp ll lr]; [done|].
        injection Ha0 as ->. destruct Hpl as (-> & _).
        destruct f0 as [|f0]; [lia|].
        erewrite climb_dec_from_left;
          [|done|by eapply root_lt_of_Forall_l].
        apply (Hup a eq_refl). lia.
      - lia. }
    f_equal. apply lookup_lt_Some in Hi as Hlt.
    destruct i as [|j]; [done|]. by rewrite lookup_app_l by lia.
  - destruct (i - length (addrs l))%nat as [|j] eqn:Ej.
    + (* the node itself *)
      injection Hi as <-.
      unfold step_dec. rewrite Hat.
      destruct l as [|la lx llv lp ll lr].
      * simpl in *. rewrite (Hup a eq_refl) by lia.
        by replace i with 0%nat by lia.
      * change (Predecessor _) with (rightmost (Node la lx llv lp ll lr)).
        rewrite self_rightmost, last_lookup. f_equal.
        destruct i as [|i']; [simpl in Hle; rewrite length_app in Hle; simpl in Hle; lia|].
        rewrite lookup_app_l by lia. f_equal. lia.
    + (* in the right subtree *)
      simpl in Hi.
      assert (r <> nullptr) as Hr by (intros ->; done).
      assert (step_dec f R x
              = Some (match j with O => Some a | S j' => addrs r !! j' end)) as ->.
      { eapply (IHr (Some a) (Some a) 1%nat); try done.
        - intros _. by eapply node_of_right.
        - intros a0 Ha0 f0 Hf0.
          destruct r as [|ra rx rlv rp rl rr]; [done|].
          injection Ha0 as ->. destruct Hpr as (-> & _).
          destruct f0 as [|f0]; [lia|].
          eapply climb_dec_from_right; [done|]. by eapply root_gt_of_Forall_r.
        - lia. }
      f_equal. destruct i as [|i']; [lia|].
      rewrite lookup_app_r by lia.
      replace (i' - length (addrs l))%nat with j by lia.
      by destruct j.
Qed.
End steps.

(** ** Positions in the in-order sequence *)

Lemma vals_inorder t : vals t = (inorder t).*2.
Proof.
  induction t as [|a v lv p l IHl r IHr]; [done|].
  simpl. by rewrite fmap_app, fmap_cons, IHl, IHr.
Qed.

Lemma addrs_inorder t : addrs t = (inorder t).*1.
Proof.
  induction t as [|a v lv p l IHl r IHr]; [done|].
  simpl. by rewrite fmap_app, fmap_cons, IHl, IHr.
Qed.

Lemma first_ge_app w xs ys :
  first_ge w (xs ++ ys)
  = match first_ge w xs with Some y => Some y | None => first_ge w ys end.
Proof.
  induction xs as [|[a v] xs IH]; [done|]. simpl. by destruct (v <? w).
Qed.

Lemma first_ge_all_lt w xs : Forall (fun x => x < w) xs.*2 -> first_ge w xs = None.
Proof.
  induction xs as [|[a v] xs IH]; [done|].
  rewrite fmap_cons, Forall_cons. simpl. intros [Hv Hxs].
  destruct (Z.ltb_spec v w); [auto|lia].
Qed.

Lemma inorder_node_of t a v :
  (a, v) ∈ inorder t -> exists lv p l r, node_of (Node a v lv p l r) t.
Proof.
  induction t as [|b x lx q L IHL R IHR]; simpl; [by intros ?%elem_of_nil|].
  rewrite elem_of_app, elem_of_cons.
  intros [H|[[= -> ->]|H]].
  - destruct (IHL H) as (lv & p & l & r & Hn). exists lv, p, l, r. tauto.
  - exists lx, q, L, R. by left.
  - destruct (IHR H) as (lv & p & l & r & Hn). exists lv, p, l, r. tauto.
Qed.

Lemma inorder_node_at t a v :
  uniq t -> (a, v) ∈ inorder t ->
  exists lv p l r, node_at a t = Some (Node a v lv p l r).
Proof.
  intros Hu (lv & p & l & r & Hn)%inorder_node_of.
  exists lv, p, l, r. by apply node_at_node_of.
Qed.

Lemma lower_bound_loop_spec this s w t :
  wf s ->
  forall p e k,
    t <> nullptr ->
    node_of t (Root_ s) ->
    parents_ok p t ->
    sorted (vals t) ->
    (forall a0, self_of t = Some a0 ->
       forall f, (k <= f)%nat -> climb_inc f (Root_ s) a0 = Some e) ->
    (k + height t <= S (count (Root_ s)))%nat ->
    lower_bound_loop this s t w
    = Some (mkIter this (match first_ge w (inorder t) with
                         | Some y => Some y
                         | None => e
                         end)).
Proof.
  intros Hwf.
  induction t as [|a v lv q l IHl r IHr]; intros p e k Hnn Hin Hp Hs Hup Hk;
    [done|].
  pose proof (node_at_node_of _ _ _ _ _ _ _ (wf_uniq _ Hwf) Hin) as Hat.
  destruct Hp as (-> & Hpl & Hpr).
  simpl in Hs. apply sorted_node in Hs as (Hsl & Hsr & Hlv & Hvr).
  simpl in Hk. simpl lower_bound_loop. simpl inorder.
  rewrite first_ge_app. simpl first_ge.
  destruct (Z.ltb_spec v w) as [Hvw|Hvw].
  - rewrite first_ge_all_lt by (rewrite <-vals_inorder; forall_lia).
    destruct r as [|ra rx rlv rp rl rr].
    + unfold operator_inc, step_inc. cbn [IteratorNode_ Set_].
      rewrite Hat. cbv iota.
      by rewrite (Hup a eq_refl) by lia.
    + eapply (IHr (Some a) e (S k)); try done.
      * by eapply node_of_right.
      * intros a0 [= <-] f0 Hf0. destruct Hpr as (-> & _).
        destruct f0 as [|f0]; [lia|].
        erewrite climb_inc_from_right;
          [|by apply Hwf|done|by eapply root_gt_of_Forall_r].
        apply (Hup a eq_refl). lia.
      * lia.
  - destruct l as [|la lx llv lp ll lr]; [done|].
    destruct (Z.ltb_spec w v) as [Hwv|Hwv].
    + erewrite (IHl (Some a) (Some a) 1%nat); try done.
      * by destruct (first_ge w (inorder (Node la lx llv lp ll lr))).
      * by eapply node_of_left.
      * intros a0 [= <-] f0 Hf0. destruct Hpl as (-> & _).
        destruct f0 as [|f0]; [lia|].
        eapply climb_inc_from_left;
          [by apply Hwf|done|by eapply root_lt_of_Forall_l].
      * lia.
    + assert (w = v) as -> by lia.
      by rewrite first_ge_all_lt by (rewrite <-vals_inorder; forall_lia).
Qed.

Lemma climb_inc_root f a v lv l r :
  climb_inc (S f) (Node a v lv None l r) a = Some None.
Proof. simpl. by rewrite decide_True. Qed.

Lemma climb_dec_root f a v lv l r :
  climb_dec (S f) (Node a v lv None l r) a = Some None.
Proof. simpl. by rewrite decide_True. Qed.

Lemma lower_bound_spec this s w :
  wf s ->
  lower_bound this s w = Some (mkIter this (first_ge w (inorder (Root_ s)))).
Proof.
  intros Hwf. unfold lower_bound.
  destruct (Root_ s) as [|a v lv p l r] eqn:ER; [done|].
  rewrite <-ER.
  erewrite (lower_bound_loop_spec this s w (Root_ s) Hwf None None 1%nat).
  - by destruct (first_ge _ _).
  - by rewrite ER.
  - rewrite ER. apply node_of_refl.
  - apply Hwf.
  - apply Hwf.
  - rewrite ER. intros a0 [= <-] f Hf.
    pose proof (wf_parents _ Hwf) as Hp. rewrite ER in Hp. destruct Hp as (-> & _).
    destruct f as [|f]; [lia|]. apply climb_inc_root.
  - pose proof (height_le_count (Root_ s)). lia.
Qed.

Lemma operator_inc_spec s this i a :
  wf s -> addrs (Root_ s) !! i = Some a ->
  operator_inc s (mkIter this (Some a))
  = Some (mkIter this (addrs (Root_ s) !! S i)).
Proof.
  intros Hwf Hi. unfold operator_inc. cbn [IteratorNode_ Set_].
  destruct (Root_ s) as [|b v lv p l r] eqn:ER; [done|]. rewrite <-ER in *.
  erewrite (step_inc_spec (Root_ s) (wf_uniq _ Hwf) (Root_ s) None None 1%nat);
    try done.
  - by destruct (addrs (Root_ s) !! S i).
  - intros _. rewrite ER. apply node_of_refl.
  - apply Hwf.
  - apply Hwf.
  - rewrite ER. intros a0 [= <-] f Hf.
    pose proof (wf_parents _ Hwf) as Hp. rewrite ER in Hp. destruct Hp as (-> & _).
    destruct f as [|f]; [lia|]. apply climb_inc_root.
  - pose proof (height_le_count (Root_ s)). lia.
Qed.

Lemma operator_dec_spec s this i a :
  wf s -> addrs (Root_ s) !! i = Some a ->
  operator_dec s (mkIter this (Some a))
  = Some (mkIter this (match i with O => None | S j => addrs (Root_ s) !! j end)).
Proof.
  intros Hwf Hi. unfold operator_dec. cbn [IteratorNode_ Set_].
  destruct (Root_ s) as [|b v lv p l r] eqn:ER; [done|]. rewrite <-ER in *.
  erewrite (step_dec_spec (Root_ s) (wf_uniq _ Hwf) (Root_ s) None None 1%nat);
    try done.
  - intros _. rewrite ER. apply node_of_refl.
  - apply Hwf.
  - apply Hwf.
  - rewrite ER. intros a0 [= <-] f Hf.
    pose proof (wf_parents _ Hwf) as Hp. rewrite ER in Hp. destruct Hp as (-> & _).
    destruct f as [|f]; [lia|]. apply climb_dec_root.
  - pose proof (height_le_count (Root_ s)). lia.
Qed.

Lemma operator_dec_end s this :
  operator_dec s (end_ this) = Some (mkIter this (last (addrs (Root_ s)))).
Proof. unfold operator_dec. simpl. by rewrite self_rightmost. Qed.

Lemma begin_spec s this : begin this s = mkIter this (addrs (Root_ s) !! 0%nat).
Proof.
  unfold begin. destruct (Root_ s) as [|b v lv p l r] eqn:ER; [done|].
  by rewrite self_leftmost, head_lookup.
Qed.

Lemma addr_of_value_None w xs :
  Forall (fun y => y <> w) xs.*2 -> addr_of_value w xs = None.
Proof.
  induction xs as [|[a v] xs IH]; [done|].
  rewrite fmap_cons, Forall_cons. simpl. intros [Hv Hxs].
  rewrite decide_False by done. auto.
Qed.

Lemma first_ge_Some w xs a :
  sorted xs.*2 -> first_ge w xs = Some a ->
  exists v, (a, v) ∈ xs /\ w <= v /\
            addr_of_value w xs = if decide (v = w) then Some a else None.
Proof.
  induction xs as [|[b x] xs IH]; [done|].
  rewrite fmap_cons. intros [Hx Hs]%StronglySorted_cons. simpl in *.
  destruct (Z.ltb_spec x w) as [Hxw|Hxw].
  - intros Hf. destruct (IH Hs Hf) as (v & Hin & Hv & Ha).
    exists v. rewrite decide_False by lia. repeat split; [by right|done..].
  - intros [= ->]. exists x. repeat split; [by left|done|].
    destruct (decide (x = w)); [done|].
    apply addr_of_value_None. forall_lia.
Qed.

Lemma first_ge_None w xs : first_ge w xs = None -> Forall (fun y => y < w) xs.*2.
Proof.
  induction xs as [|[b x] xs IH]; [constructor|]. simpl.
  destruct (Z.ltb_spec x w); [|done]. intros Hf. constructor; auto.
Qed.

Lemma find_spec this s w :
  wf s ->
  find this s w = Some (mkIter this (addr_of_value w (inorder (Root_ s)))).
Proof.
  intros Hwf. unfold find. rewrite lower_bound_spec by done.
  pose proof (wf_sorted _ Hwf) as Hs. rewrite vals_inorder in Hs.
  destruct (first_ge w (inorder (Root_ s))) as [a|] eqn:E.
  - destruct (first_ge_Some _ _ _ Hs E) as (v & Hin & Hv & ->).
    destruct (inorder_node_at _ _ _ (wf_uniq _ Hwf) Hin) as (lv & p & l & r & Hat).
    unfold iter_neqb, deref. simpl. rewrite Hat.
    destruct (Z.ltb_spec v w); [lia|].
    destruct (Z.ltb_spec w v); simpl.
    + rewrite decide_False by lia. by destruct (negb _).
    + rewrite decide_True by lia. by rewrite orb_true_r.
  - unfold iter_neqb. simpl. rewrite bool_decide_eq_true_2 by done. simpl.
    rewrite addr_of_value_None; [done|].
    apply first_ge_None in E. forall_lia.
Qed.

Lemma addr_of_value_Some w xs :
  w ∈ xs.*2 -> exists a, addr_of_value w xs = Some a /\ (a, w) ∈ xs.
Proof.
  induction xs as [|[b x] xs IH]; [by intros ?%elem_of_nil|].
  rewrite fmap_cons, elem_of_cons. simpl. intros H.
  destruct (decide (x = w)) as [->|Hne].
  - exists b. split; [done|by left].
  - destruct H as [?|H]; [done|]. destruct (IH H) as (a & -> & Hin).
    exists a. split; [done|by right].
Qed.

(** ** Statements about the public interface *)

Lemma parents_ok_node_of p t n :
  parents_ok p t -> node_of n t -> exists q, parents_ok q n.
Proof.
  revert p. induction t as [|a v lv q l IHl r IHr]; intros p; [done|].
  intros Hp [->|[H|H]]; [by exists p|..]; destruct Hp as (_ & Hl & Hr); eauto.
Qed.

Lemma parents_ok_consistent root :
  uniq root -> parents_ok None root -> parents_consistent root.
Proof.
  intros Hu Hp. split; [destruct root; [done|apply Hp]|].
  intros a v lv p l r Hn.
  destruct (parents_ok_node_of _ _ _ Hp Hn) as (q & _ & Hl & Hr).
  pose proof (node_at_node_of _ _ _ _ _ _ _ Hu Hn) as Hat.
  split; intros Hc; exists a.
  - split; [|done]. destruct l; [done|]. apply Hl.
  - split; [|done]. destruct r; [done|]. apply Hr.
Qed.

Lemma sorted_NoDup xs : sorted xs -> NoDup xs.
Proof.
  induction 1 as [|x xs Hs IH Hx]; constructor; [|done].
  intros Hin. rewrite Forall_forall in Hx. specialize (Hx x Hin). lia.
Qed.

Lemma reachable_example_state : reachable example_state.
Proof. by exists example_ops. Defined.

(** C3: in every reachable state the in-order traversal of the tree is
    strictly ascending, hence without duplicates. *)
Theorem inorder_strictly_ascending s :
  reachable s -> sorted (contents s) /\ NoDup (contents s).
Proof.
  intros Hr. apply reachable_wf in Hr as [Hs _ _ _ _].
  split; [done|]. by apply sorted_NoDup.
Qed.

Lemma inorder_strictly_ascending_witness :
  reachable example_state /\
  sorted (contents example_state) /\ NoDup (contents example_state).
Proof.
  split; [exact reachable_example_state|].
  exact (inorder_strictly_ascending _ reachable_example_state).
Defined.

(** C4: after every [insert] and every [erase] from a reachable state, the
    root has no parent reference and the parent reference of every existing
    child is the address of the node that owns it. *)
Theorem parents_consistent_after_mutation s o :
  reachable s -> parents_consistent (Root_ (apply_op s o)).
Proof.
  intros Hr. apply (reachable_apply_op _ o), reachable_wf in Hr.
  apply parents_ok_consistent; apply Hr.
Qed.

Lemma parents_consistent_after_mutation_witness :
  reachable example_state /\
  parents_consistent (Root_ (apply_op example_state (OpErase 3))).
Proof.
  split; [exact reachable_example_state|].
  exact (parents_consistent_after_mutation _ (OpErase 3) reachable_example_state).
Defined.

Lemma length_ins_list v xs :
  sorted xs ->
  length (ins_list v xs)
  = (length xs + if decide (v ∈ xs) then 0 else 1)%nat.
Proof.
  intros Hs. destruct (decide (v ∈ xs)) as [Hin|Hin].
  { rewrite ins_list_present by done. lia. }
  clear Hs. unfold ins_list. rewrite length_app. simpl.
  induction xs as [|x xs IH]; [done|].
  apply not_elem_of_cons in Hin as [Hne Hin]. specialize (IH Hin).
  rewrite !filter_cons.
  destruct (decide (x < v)), (decide (v < x)); simpl; lia.
Qed.

Lemma length_del_list v xs :
  NoDup xs ->
  length xs
  = (length (del_list v xs) + if decide (v ∈ xs) then 1 else 0)%nat.
Proof.
  unfold del_list. induction 1 as [|x xs Hx Hnd IH]; [done|].
  rewrite filter_cons. destruct (decide (x <> v)) as [Hne|Heq].
  - simpl. rewrite IH.
    destruct (decide (v ∈ xs)) as [Hin|Hin].
    + rewrite decide_True by (by right). lia.
    + rewrite decide_False; [lia|]. by intros [?|?]%elem_of_cons.
  - assert (x = v) as -> by (destruct (decide (x = v)); [done|tauto]).
    rewrite decide_True by (by left).
    rewrite filter_all; [simpl; lia|].
    apply Forall_forall. by intros y Hy ->.
Qed.

Lemma list_to_set_ins_list v xs :
  (list_to_set (ins_list v xs) : gset Z) = {[v]} ∪ list_to_set xs.
Proof.
  apply set_eq. intros x.
  rewrite elem_of_union, elem_of_singleton, !elem_of_list_to_set.
  apply elem_of_ins_list.
Qed.

Lemma list_to_set_del_list v xs :
  (list_to_set (del_list v xs) : gset Z) = list_to_set xs ∖ {[v]}.
Proof.
  apply set_eq. intros x.
  rewrite elem_of_difference, elem_of_singleton, !elem_of_list_to_set.
  rewrite elem_of_del_list. tauto.
Qed.

Lemma count_contents s : count (Root_ s) = length (contents s).
Proof. apply count_vals. Qed.

Lemma apply_op_model s o :
  wf s ->
  (list_to_set (contents (apply_op s o)) : gset Z)
  = model_apply (list_to_set (contents s)) o /\
  Z.of_nat (count (Root_ (apply_op s o)))
  = Z.of_nat (count (Root_ s)) + tally (list_to_set (contents s)) o.
Proof.
  intros Hwf. pose proof (wf_sorted _ Hwf) as Hs.
  rewrite !count_contents. destruct o as [v|v]; simpl.
  - rewrite contents_insert by done. split; [apply list_to_set_ins_list|].
    rewrite length_ins_list by done.
    destruct (decide (v ∈ contents s)) as [Hin|Hin].
    + rewrite decide_True by (by apply elem_of_list_to_set). lia.
    + rewrite decide_False by (by rewrite elem_of_list_to_set). lia.
  - rewrite contents_erase by done. split; [apply list_to_set_del_list|].
    rewrite (length_del_list v (contents s)) by (by apply sorted_NoDup).
    destruct (decide (v ∈ contents s)) as [Hin|Hin].
    + rewrite decide_True by (by apply elem_of_list_to_set). lia.
    + rewrite decide_False by (by rewrite elem_of_list_to_set). lia.
Qed.

Lemma wf_apply_op s o : wf s -> wf (apply_op s o).
Proof. destruct o; [apply wf_insert|apply wf_erase]. Qed.

Lemma run_net_changes ops s :
  wf s ->
  Z.of_nat (count (Root_ (run ops s)))
  = Z.of_nat (count (Root_ s)) + net_changes (list_to_set (contents s)) ops.
Proof.
  revert s. induction ops as [|o ops IH]; intros s Hwf; [simpl; lia|].
  simpl. destruct (apply_op_model s o Hwf) as [Hm Hc].
  rewrite IH by (by apply wf_apply_op). rewrite Hm, Hc. lia.
Qed.

(** C7: [size()] is the number of nodes reachable from the root, and it is
    the number of inserts of a new value minus the number of erases of a
    present value, as long as the number of nodes fits [size_t] (which the
    address space of the machine guarantees). *)
Theorem size_consistency ops :
  Z.of_nat (count (Root_ (run ops empty_set))) < 2 ^ 64 ->
  size (run ops empty_set) = Z.of_nat (count (Root_ (run ops empty_set))) /\
  size (run ops empty_set) = net_changes ∅ ops.
Proof.
  intros Hlt.
  pose proof (wf_run ops empty_set wf_empty_set) as Hwf.
  assert (size (run ops empty_set) = Z.of_nat (count (Root_ (run ops empty_set))))
    as E.
  { unfold size. rewrite (wf_Size _ Hwf). unfold size_t.
    apply Z.mod_small. lia. }
  split; [done|]. rewrite E, (run_net_changes ops empty_set wf_empty_set).
  simpl. done.
Qed.

Lemma size_consistency_witness :
  Z.of_nat (count (Root_ (run example_ops empty_set))) < 2 ^ 64 /\
  size (run example_ops empty_set)
  = Z.of_nat (count (Root_ (run example_ops empty_set))) /\
  size (run example_ops empty_set) = net_changes ∅ example_ops.
Proof.
  assert (Z.of_nat (count (Root_ (run example_ops empty_set))) < 2 ^ 64) as H
    by (vm_compute; reflexivity).
  split; [exact H|]. exact (size_consistency example_ops H).
Defined.

Lemma size_eq_of_contents s s' :
  wf s -> wf s' -> contents s' = contents s -> size s' = size s.
Proof.
  intros Hwf Hwf' E. unfold size.
  by rewrite (wf_Size _ Hwf), (wf_Size _ Hwf'), !count_contents, E.
Qed.

Lemma find_absent this s v :
  wf s -> v ∉ contents s -> find this s v = Some (end_ this).
Proof.
  intros Hwf Hin. rewrite find_spec by done.
  rewrite addr_of_value_None; [done|].
  rewrite <-vals_inorder. apply Forall_forall. by intros y Hy ->.
Qed.

Lemma find_present this s v :
  wf s -> v ∈ contents s ->
  exists it, find this s v = Some it /\ deref s it = Some v.
Proof.
  intros Hwf Hin. rewrite find_spec by done.
  unfold contents in Hin. rewrite vals_inorder in Hin.
  destruct (addr_of_value_Some _ _ Hin) as (a & -> & Ha).
  destruct (inorder_node_at _ _ _ (wf_uniq _ Hwf) Ha) as (lv & p & l & r & Hat).
  eexists. split; [done|]. unfold deref. simpl. by rewrite Hat.
Qed.

Lemma lower_bound_none this s v :
  wf s -> Forall (fun x => x < v) (contents s) ->
  lower_bound this s v = Some (end_ this).
Proof.
  intros Hwf Hall. rewrite lower_bound_spec by done.
  rewrite first_ge_all_lt; [done|]. by rewrite <-vals_inorder.
Qed.

(** C8: erasing an absent value and inserting a present value leave the
    size and the in-order sequence as they are (so a second insert of a
    value changes nothing after the first), and [find] and [lower_bound]
    without a match return the end iterator; all of them return normally. *)
Theorem absence_is_not_an_error s this v :
  reachable s ->
  (v ∉ contents s ->
     size (erase v s) = size s /\ contents (erase v s) = contents s) /\
  (v ∈ contents s ->
     size (insert v s) = size s /\ contents (insert v s) = contents s) /\
  (size (insert v (insert v s)) = size (insert v s) /\
   contents (insert v (insert v s)) = contents (insert v s)) /\
  (v ∉ contents s -> find this s v = Some (end_ this)) /\
  (Forall (fun x => x < v) (contents s) ->
     lower_bound this s v = Some (end_ this)).
Proof.
  intros Hwf%reachable_wf. pose proof (wf_sorted _ Hwf) as Hs.
  assert (forall s0, wf s0 -> v ∈ contents s0 ->
            size (insert v s0) = size s0 /\ contents (insert v s0) = contents s0)
    as Hins.
  { intros s0 Hwf0 Hin.
    assert (contents (insert v s0) = contents s0) as E.
    { rewrite contents_insert by apply Hwf0.
      apply ins_list_present; [apply Hwf0|done]. }
    split; [|done]. apply size_eq_of_contents; [done|by apply wf_insert|done]. }
  repeat split.
  - apply size_eq_of_contents; [done|by apply wf_erase|].
    rewrite contents_erase by done. by apply del_list_absent.
  - rewrite contents_erase by done. by apply del_list_absent.
  - by apply Hins.
  - by apply Hins.
  - apply Hins; [by apply wf_insert|].
    rewrite contents_insert by done. apply elem_of_ins_list. by left.
  - apply Hins; [by apply wf_insert|].
    rewrite contents_insert by done. apply elem_of_ins_list. by left.
  - by apply find_absent.
  - by apply lower_bound_none.
Qed.

Lemma absence_is_not_an_error_witness :
  reachable example_state /\
  (5 ∉ contents example_state ->
     size (erase 5 example_state) = size example_state /\
     contents (erase 5 example_state) = contents example_state) /\
  (5 ∈ contents example_state ->
     size (insert 5 example_state) = size example_state /\
     contents (insert 5 example_state) = contents example_state) /\
  (size (insert 5 (insert 5 example_state)) = size (insert 5 example_state) /\
   contents (insert 5 (insert 5 example_state))
   = contents (insert 5 example_state)) /\
  (5 ∉ contents example_state -> find 0%nat example_state 5 = Some (end_ 0%nat)) /\
  (Forall (fun x => x < 5) (contents example_state) ->
     lower_bound 0%nat example_state 5 = Some (end_ 0%nat)).
Proof.
  split; [exact reachable_example_state|].
  exact (absence_is_not_an_error example_state 0%nat 5 reachable_example_state).
Defined.

(** C9: after [insert(v)], [find(v)] returns an iterator that dereferences
    to [v]; after [erase(v)], [find(v)] returns the end iterator. *)
Theorem find_after_insert_and_erase s this v :
  reachable s ->
  (exists it, find this (insert v s) v = Some it /\
              deref (insert v s) it = Some v) /\
  find this (erase v s) v = Some (end_ this).
Proof.
  intros Hwf%reachable_wf. pose proof (wf_sorted _ Hwf) as Hs. split.
  - apply find_present; [by apply wf_insert|].
    rewrite contents_insert by done. apply elem_of_ins_list. by left.
  - apply find_absent; [by apply wf_erase|].
    rewrite contents_erase by done. rewrite elem_of_del_list. tauto.
Qed.

Lemma find_after_insert_and_erase_witness :
  reachable example_state /\
  (exists it, find 0%nat (insert 4 example_state) 4 = Some it /\
              deref (insert 4 example_state) it = Some 4) /\
  find 0%nat (erase 4 example_state) 4 = Some (end_ 0%nat).
Proof.
  split; [exact reachable_example_state|].
  exact (find_after_insert_and_erase example_state 0%nat 4 reachable_example_state).
Defined.

Lemma deref_position s this i a :
  wf s -> addrs (Root_ s) !! i = Some a ->
  deref s (mkIter this (Some a)) = contents s !! i.
Proof.
  intros Hwf Hi. unfold contents.
  rewrite addrs_inorder, list_lookup_fmap in Hi.
  rewrite vals_inorder, list_lookup_fmap.
  destruct (inorder (Root_ s) !! i) as [[b v]|] eqn:E; [|done].
  injection Hi as ->.
  apply list_elem_of_lookup_2 in E.
  destruct (inorder_node_at _ _ _ (wf_uniq _ Hwf) E) as (lv & p & l & r & Hat).
  unfold deref. simpl. by rewrite Hat.
Qed.

Lemma iter_eqb_refl it : iter_eqb it it = true.
Proof. unfold iter_eqb. by rewrite !bool_decide_eq_true_2. Qed.

(** C5: in a reachable set, incrementing the iterator at position [i] of
    the in-order sequence (which is the sorted sequence, and the iterator
    dereferences to its [i]-th value) gives the iterator at position [i+1],
    which is the end iterator when [i] is the last position, and
    decrementing that gives back the iterator at position [i]. *)
Theorem iterator_symmetry s this i a :
  reachable s ->
  addrs (Root_ s) !! i = Some a ->
  deref s (mkIter this (Some a)) = contents s !! i /\
  operator_inc s (mkIter this (Some a))
  = Some (mkIter this (addrs (Root_ s) !! S i)) /\
  (S i = length (contents s) ->
     mkIter this (addrs (Root_ s) !! S i) = end_ this) /\
  exists back,
    operator_dec s (mkIter this (addrs (Root_ s) !! S i)) = Some back /\
    back = mkIter this (Some a) /\
    iter_eqb back (mkIter this (Some a)) = true.
Proof.
  intros Hwf%reachable_wf Hi.
  split; [by apply deref_position|].
  split; [by apply operator_inc_spec|].
  split.
  { intros Hn. rewrite lookup_ge_None_2; [done|].
    rewrite length_addrs, count_contents. lia. }
  exists (mkIter this (Some a)). split; [|split; [done|apply iter_eqb_refl]].
  destruct (addrs (Root_ s) !! S i) as [b|] eqn:E.
  - by rewrite (operator_dec_spec s this (S i) b Hwf E), Hi.
  - change (mkIter this None) with (end_ this).
    rewrite operator_dec_end, last_lookup. f_equal. f_equal.
    apply lookup_ge_None_1 in E. apply lookup_lt_Some in Hi as Hlt.
    rewrite <-Hi. f_equal. lia.
Qed.

Lemma iterator_symmetry_witness :
  reachable example_state /\
  addrs (Root_ example_state) !! 1%nat = Some 9%nat /\
  deref example_state (mkIter 0%nat (Some 9%nat))
  = contents example_state !! 1%nat /\
  operator_inc example_state (mkIter 0%nat (Some 9%nat))
  = Some (mkIter 0%nat (addrs (Root_ example_state) !! 2%nat)) /\
  (2%nat = length (contents example_state) ->
     mkIter 0%nat (addrs (Root_ example_state) !! 2%nat) = end_ 0%nat) /\
  exists back,
    operator_dec example_state (mkIter 0%nat (addrs (Root_ example_state) !! 2%nat))
    = Some back /\
    back = mkIter 0%nat (Some 9%nat) /\
    iter_eqb back (mkIter 0%nat (Some 9%nat)) = true.
Proof.
  assert (addrs (Root_ example_state) !! 1%nat = Some 9%nat) as H
    by (vm_compute; reflexivity).
  split; [exact reachable_example_state|]. split; [exact H|].
  exact (iterator_symmetry example_state 0%nat 1%nat 9%nat reachable_example_state H).
Defined.

(** C10: in a non-empty reachable set, decrementing the iterator returned
    by [begin()] follows live parent references only and ends at the end
    iterator. *)
Theorem decrement_begin_is_end s this :
  reachable s ->
  Root_ s <> nullptr ->
  operator_dec s (begin this s) = Some (end_ this) /\
  iter_eqb (end_ this) (end_ this) = true.
Proof.
  intros Hwf%reachable_wf Hne. split; [|apply iter_eqb_refl].
  rewrite begin_spec.
  destruct (addrs (Root_ s) !! 0%nat) as [a|] eqn:E.
  - by rewrite (operator_dec_spec s this 0 a Hwf E).
  - apply lookup_ge_None_1 in E. rewrite length_addrs in E.
    destruct (Root_ s); [done|simpl in E; lia].
Qed.

Lemma decrement_begin_is_end_witness :
  reachable example_state /\
  Root_ example_state <> nullptr /\
  operator_dec example_state (begin 0%nat example_state) = Some (end_ 0%nat) /\
  iter_eqb (end_ 0%nat) (end_ 0%nat) = true.
Proof.
  assert (Root_ example_state <> nullptr) as H by (vm_compute; discriminate).
  split; [exact reachable_example_state|]. split; [exact H|].
  exact (decrement_begin_is_end example_state 0%nat reachable_example_state H).
Defined.

Lemma first_ge_position w xs a :
  first_ge w xs = Some a ->
  exists i v, xs !! i = Some (a, v) /\ w <= v /\
              Forall (fun x => x < w) (take i xs.*2).
Proof.
  induction xs as [|[b x] xs IH]; [done|]. simpl.
  destruct (Z.ltb_spec x w) as [Hxw|Hxw].
  - intros (i & v & Hi & Hv & Hall)%IH. exists (S i), v.
    repeat split; [done..|]. simpl. by constructor.
  - intros [= ->]. exists 0%nat, x. repeat split; [done|]. simpl. constructor.
Qed.

Lemma lower_bound_at_first_not_below s this w :
  wf s ->
  exists it, lower_bound this s w = Some it /\ Set_ it = this /\
             at_first_not_below s w it.
Proof.
  intros Hwf. rewrite lower_bound_spec by done.
  eexists. split; [done|]. split; [done|].
  unfold at_first_not_below, contents. simpl.
  destruct (first_ge w (inorder (Root_ s))) as [a|] eqn:E.
  - destruct (first_ge_position _ _ _ E) as (i & v & Hi & Hv & Hall).
    assert (addrs (Root_ s) !! i = Some a) as Ha
      by (by rewrite addrs_inorder, list_lookup_fmap, Hi).
    assert (vals (Root_ s) !! i = Some v) as Hval
      by (by rewrite vals_inorder, list_lookup_fmap, Hi).
    exists i, v. rewrite vals_inorder.
    repeat split; try done.
    + by rewrite <-vals_inorder.
    + by rewrite (deref_position s this i a Hwf Ha).
  - rewrite vals_inorder. by apply first_ge_None.
Qed.

(** C6: in a reachable set [lower_bound(w)] returns the iterator at the
    first element of the sorted sequence that is not below [w], or the end
    iterator when every element is below [w]; on the set {1,3,5,8},
    [lower_bound(4)] is at 5, [lower_bound(9)] is the end iterator and
    [lower_bound(0)] is at 1. *)
Theorem lower_bound_correct s this w :
  reachable s ->
  (exists it, lower_bound this s w = Some it /\ Set_ it = this /\
              at_first_not_below s w it) /\
  (contents s = [1; 3; 5; 8] ->
     (exists it, lower_bound this s 4 = Some it /\ deref s it = Some 5) /\
     lower_bound this s 9 = Some (end_ this) /\
     (exists it, lower_bound this s 0 = Some it /\ deref s it = Some 1)).
Proof.
  intros Hwf%reachable_wf.
  split; [by apply lower_bound_at_first_not_below|].
  intros Hc.
  assert (forall w0 i0 v0,
            [1; 3; 5; 8] !! i0 = Some v0 -> w0 <= v0 ->
            Forall (fun x => x < w0) (take i0 [1; 3; 5; 8]) ->
            exists it, lower_bound this s w0 = Some it /\ deref s it = Some v0)
    as Hex.
  { intros w0 i0 v0 Hi0 Hv0 Hall0.
    destruct (lower_bound_at_first_not_below s this w0 Hwf) as (it & E & _ & Hat).
    exists it. split; [done|]. unfold at_first_not_below in Hat.
    rewrite Hc in Hat. destruct (IteratorNode_ it) as [a|].
    - destruct Hat as (i & v & _ & Hi & -> & Hv & Hall). f_equal.
      destruct (decide (i < i0)%nat) as [Hlt|Hge].
      + rewrite Forall_lookup in Hall0.
        assert (take i0 [1; 3; 5; 8] !! i = Some v) as Ht
          by (by rewrite lookup_take_lt).
        specialize (Hall0 _ _ Ht). simpl in Hall0. lia.
      + destruct (decide (i0 < i)%nat) as [Hlt|Hge'].
        * rewrite Forall_lookup in Hall.
          assert (take i [1; 3; 5; 8] !! i0 = Some v0) as Ht
            by (by rewrite lookup_take_lt).
          specialize (Hall _ _ Ht). simpl in Hall. lia.
        * assert (i = i0) as -> by lia. congruence.
    - rewrite Forall_lookup in Hat. specialize (Hat _ _ Hi0). simpl in Hat. lia. }
  split; [|split].
  - apply (Hex 4 2%nat 5); [done|lia|]. repeat constructor.
  - apply lower_bound_none; [done|]. rewrite Hc. repeat constructor.
  - apply (Hex 0 0%nat 1); [done|lia|]. constructor.
Qed.

Lemma reachable_set_1358 : reachable set_1358.
Proof. by eexists. Defined.

Lemma lower_bound_correct_witness :
  reachable set_1358 /\
  (exists it, lower_bound 0%nat set_1358 4 = Some it /\ Set_ it = 0%nat /\
              at_first_not_below set_1358 4 it) /\
  (contents set_1358 = [1; 3; 5; 8] ->
     (exists it, lower_bound 0%nat set_1358 4 = Some it /\
                 deref set_1358 it = Some 5) /\
     lower_bound 0%nat set_1358 9 = Some (end_ 0%nat) /\
     (exists it, lower_bound 0%nat set_1358 0 = Some it /\
                 deref set_1358 it = Some 1)).
Proof.
  split; [exact reachable_set_1358|].
  exact (lower_bound_correct set_1358 0%nat 4 reachable_set_1358).
Defined.

(** ** Levels and height *)

(** C1: the level invariants hold after inserting 1, 2, 3, and erasing 1
    from that set leaves the root at level 2 without a left child, which
    breaks them. *)
Theorem erase_breaks_level_invariants :
  aa_invariants (Root_ (run ops_123 empty_set)) = true /\
  Root_ (erase 1 (run ops_123 empty_set))
  = Node 4%nat 2 2 None nullptr (Node 3%nat 3 1 (Some 4%nat) nullptr nullptr) /\
  aa_invariants (Root_ (erase 1 (run ops_123 empty_set))) = false.
Proof. by vm_compute. Qed.

(** C2: a reachable set of 7 elements whose tree has height 7, above the
    bound 6, and one of 10 elements whose tree has height 9 (8 edges), above
    the bound 7; ascending inserts alone stay within the bound, as for
    1..1000. *)
Theorem height_bound_fails_after_erase :
  size (run ops_tall empty_set) = 7 /\
  height (Root_ (run ops_tall empty_set)) = 7%nat /\
  height_bound (size (run ops_tall empty_set)) = 6 /\
  size (run ops_taller empty_set) = 10 /\
  height (Root_ (run ops_taller empty_set)) = 9%nat /\
  height_bound (size (run ops_taller empty_set)) = 7 /\
  size (run (ascending 1000) empty_set) = 1000 /\
  Z.of_nat (height (Root_ (run (ascending 1000) empty_set)))
  <= height_bound (size (run (ascending 1000) empty_set)).
Proof. vm_compute. repeat split; try reflexivity. discriminate. Qed.

(** ** The level invariants under [Insert] *)

Lemma aa_level_nonneg t : aa t -> 0 <= level_of t.
Proof.
  induction t as [|a v lv p l IHl r IHr]; simpl; [lia|].
  intros (Hl & _ & E & _). specialize (IHl Hl). lia.
Qed.

Lemma aa_invariants_aa t : aa_invariants t = true <-> aa t.
Proof.
  induction t as [|a v lv p l IHl r IHr]; [done|].
  cbn [aa_invariants aa]. rewrite !andb_true_iff, orb_true_iff, IHl, IHr.
  rewrite !Z.eqb_eq, Z.ltb_lt. split.
  - tauto.
  - intros (Hl & Hr & E & Hr' & Hrr). repeat split; try done.
    destruct l, r; simpl in *; try done. apply Z.eqb_eq. lia.
Qed.

Lemma level_of_set_parent p t : level_of (set_parent p t) = level_of t.
Proof. by destruct t. Qed.

Lemma right_of_set_parent p t : right_of (set_parent p t) = right_of t.
Proof. by destruct t. Qed.

Lemma aa_set_parent p t : aa (set_parent p t) <-> aa t.
Proof. by destruct t. Qed.

Lemma Skew_noop t s :
  level_of (left_of t) <> level_of t \/ left_of t = nullptr ->
  Skew t s = (t, s).
Proof.
  destruct t as [|a0 dv dlv dprev [|b0 bv blv bprev A C] F]; try done.
  unfold Skew. simpl. intros [H|H]; [|done].
  by destruct (Z.eqb_spec dlv blv); [congruence|].
Qed.

Lemma Split_noop t s :
  level_of (right_of (right_of t)) <> level_of t \/ right_of (right_of t) = nullptr ->
  Split t s = (t, s).
Proof.
  destruct t as [|a0 bv blv bprev A [|c0 cv clv cprev D [|e0 ev elv eprev El Er]]];
    try done.
  unfold Split. simpl. intros [H|H]; [|done].
  by destruct (Z.eqb_spec blv elv); [congruence|].
Qed.

Lemma uint32_small x : 0 <= x < 2 ^ 32 -> uint32 x = x.
Proof. apply Z.mod_small. Qed.

Lemma Skew_rot a0 dv lv dprev b0 bv bprev A C F s :
  Skew (Node a0 dv lv dprev (Node b0 bv lv bprev A C) F) s
  = (Node (next_addr s) bv lv dprev
       (set_parent (Some (next_addr s)) A)
       (Node (S (next_addr s)) dv lv (Some (next_addr s))
          (set_parent (Some (S (next_addr s))) C)
          (set_parent (Some (S (next_addr s))) F)),
     mkStore (Root_ s) (Size_ s) (S (S (next_addr s)))).
Proof. unfold Skew. by rewrite Z.eqb_refl. Qed.

Lemma Split_rot a0 bv lv bprev A c0 cv clv cprev D E s :
  E <> nullptr -> level_of E = lv ->
  Split (Node a0 bv lv bprev A (Node c0 cv clv cprev D E)) s
  = (Node (next_addr s) cv (uint32 (clv + 1)) bprev
       (Node (S (next_addr s)) bv lv (Some (next_addr s))
          (set_parent (Some (S (next_addr s))) A)
          (set_parent (Some (S (next_addr s))) D))
       (set_parent (Some (next_addr s)) E),
     mkStore (Root_ s) (Size_ s) (S (S (next_addr s)))).
Proof.
  intros HE HL. destruct E as [|e0 ev elv eprev El Er]; [done|].
  simpl in HL. subst elv. unfold Split. by rewrite Z.eqb_refl.
Qed.

Lemma aa_right_le t : aa t -> level_of (right_of t) <= level_of t.
Proof. destruct t; simpl; [lia|]. intros (_ & _ & _ & [?|?] & _); lia. Qed.

Ltac aa_facts :=
  repeat match goal with
  | H : aa ?t |- _ =>
      lazymatch goal with
      | _ : level_of (right_of t) <= level_of t |- _ => fail
      | _ => pose proof (aa_right_le _ H)
      end
  end.

Ltac aa_solve :=
  aa_facts;
  cbn [aa level_of right_of left_of];
  rewrite ?aa_set_parent, ?level_of_set_parent, ?right_of_set_parent;
  cbn [aa level_of right_of left_of];
  repeat split; try first [done | lia | tauto].

Lemma Insert_aa t v s c s' :
  aa t -> level_of t + 1 < 2 ^ 32 -> Insert t v s = (c, s') ->
  aa c /\
  (level_of c = level_of t \/
   (level_of c = level_of t + 1 /\ level_of (right_of c) = level_of t)) /\
  (level_of (right_of t) < level_of t -> level_of c = level_of t).
Proof.
  revert s c s'. induction t as [|a x lv p l IHl r IHr]; intros s c s' Haa Hb H.
  - simpl in H. unfold incr_Size, new in H. minv.
    repeat match goal with H : (_, _) = (_, _) |- _ => injection H as <- <- end.
    aa_solve.
  - pose proof Haa as (Hl & Hr & El & Er & Err).
    pose proof (aa_level_nonneg _ Hl) as Hl0.
    pose proof (aa_level_nonneg _ Hr) as Hr0.
    cbn [level_of right_of] in Hb |- *.
    simpl in H. minv.
    destruct (Z.ltb_spec v x) as [Hvx|Hvx].
    + (* into the left subtree *)
      destruct (Z.ltb_spec x v); [lia|]. minv.
      match goal with H : Insert l _ _ = _ |- _ =>
        apply IHl in H as (Hl' & Hlv & _); [|done|lia] end.
      destruct Hlv as [Hlv|[Hlv Hsn]].
      * rewrite Skew_noop in * by (left; cbn; rewrite level_of_set_parent; lia).
        match goal with H : (_, _) = (_, _) |- _ => injection H as <- <- end.
        rewrite Split_noop in H by (left; cbn; lia).
        injection H as <- <-. aa_solve.
      * match goal with H : Skew (Node _ _ _ _ (set_parent _ ?l') _) _ = _ |- _ =>
          destruct l' as [|b bv blv bprev A C]; [simpl in Hlv; lia|];
          simpl in Hlv, Hsn, Hl'; destruct Hl' as (HA & HC & EA & EC & ECr);
          assert (blv = lv) as -> by lia;
          simpl set_parent in H; rewrite Skew_rot in H; injection H as <- <- end.
        destruct (decide (level_of r = lv)) as [Erl|Erl].
        -- rewrite Split_rot in H;
             [|destruct r; [simpl in Erl; lia|done]|by rewrite level_of_set_parent].
           injection H as <- <-.
           rewrite uint32_small by lia. aa_solve.
        -- rewrite Split_noop in H by (left; cbn; rewrite level_of_set_parent; lia).
           injection H as <- <-. aa_solve.
    + destruct (Z.ltb_spec x v) as [Hxv|Hxv]; minv.
      * (* into the right subtree *)
        match goal with H : Insert r _ _ = _ |- _ =>
          apply IHr in H as (Hr' & Hlv & Hsn); [|done|lia] end.
        rewrite Skew_noop in * by (left; cbn; lia).
        match goal with H : (_, _) = (_, _) |- _ => injection H as <- <- end.
        match goal with H : Split (Node _ _ _ _ _ (set_parent _ ?r')) _ = _ |- _ =>
          destruct (decide (level_of (right_of r') = lv)) as [Err'|Err'] end.
        -- assert (level_of r = lv) as Erl.
           { destruct Hlv as [Hlv|[Hlv Hsn']]; [|lia].
             pose proof (aa_right_le _ Hr'). lia. }
           specialize (Hsn ltac:(lia)).
           match goal with H : Split (Node _ _ _ _ _ (set_parent _ ?r')) _ = _ |- _ =>
             destruct r' as [|c0 cv clv cprev D E]; [simpl in Hsn; lia|];
             simpl in Hsn, Err', Hr'; destruct Hr' as (HD & HE & ED & EE & EEr);
             simpl set_parent in H; rewrite Split_rot in H;
               [|intros ->; simpl in Err'; lia|done];
             injection H as <- <- end.
           rewrite uint32_small by lia. aa_solve.
        -- rewrite Split_noop in H
             by (left; cbn; rewrite right_of_set_parent; lia).
           injection H as <- <-.
           destruct Hlv as [Hlv|[Hlv Hsn']]; aa_solve.
      * (* already present *)
        rewrite Skew_noop in * by (left; cbn; lia).
        match goal with H : (_, _) = (_, _) |- _ => injection H as <- <- end.
        rewrite Split_noop in H by (left; cbn; lia).
        injection H as <- <-. aa_solve.
Qed.

Lemma aa_level_le_count t : aa t -> level_of t <= Z.of_nat (count t).
Proof.
  induction t as [|a v lv p l IHl r IHr]; simpl; [lia|].
  intros (Hl & _ & E & _). specialize (IHl Hl). lia.
Qed.

Lemma count_insert_le v s :
  wf s -> (count (Root_ (insert v s)) <= S (count (Root_ s)))%nat.
Proof.
  intros Hwf. rewrite !count_contents, contents_insert by apply Hwf.
  rewrite length_ins_list by apply Hwf. case_decide; lia.
Qed.

Lemma insert_aa v s :
  wf s -> aa (Root_ s) -> Z.of_nat (count (Root_ s)) + 1 < 2 ^ 32 ->
  aa (Root_ (insert v s)).
Proof.
  intros Hwf Haa Hb. destruct (insert_unfold v s) as (r & s' & E & ->). simpl.
  apply Insert_aa in E as (? & _); [done..|].
  pose proof (aa_level_le_count _ Haa). lia.
Qed.

Lemma run_inserts_aa vs s :
  wf s -> aa (Root_ s) ->
  Z.of_nat (count (Root_ s)) + Z.of_nat (length vs) < 2 ^ 32 ->
  aa (Root_ (run (OpInsert <$> vs) s)).
Proof.
  revert s. induction vs as [|v vs IH]; intros s Hwf Haa Hb; [done|].
  simpl in *. apply IH.
  - by apply wf_insert.
  - apply insert_aa; [done..|lia].
  - pose proof (count_insert_le v s Hwf). lia.
Qed.

Lemma aa_height t :
  aa t ->
  Z.of_nat (height t) <= 2 * level_of t /\
  (level_of (right_of t) < level_of t -> Z.of_nat (height t) <= 2 * level_of t - 1).
Proof.
  induction t as [|a v lv p l IHl r IHr]; simpl; [lia|].
  intros (Hl & Hr & El & Er & Err).
  destruct (IHl Hl) as [Hl1 _]. destruct (IHr Hr) as [Hr1 Hr2].
  destruct Er as [Er|Er]; [specialize (Hr2 ltac:(lia))|]; lia.
Qed.

Lemma aa_count t : aa t -> 2 ^ level_of t <= Z.of_nat (count t) + 1.
Proof.
  induction t as [|a v lv p l IHl r IHr]; simpl; [lia|].
  intros (Hl & Hr & El & Er & Err).
  specialize (IHl Hl). specialize (IHr Hr).
  pose proof (aa_level_nonneg _ Hl).
  assert (2 ^ lv = 2 * 2 ^ (lv - 1)) as E2.
  { rewrite <-Z.pow_succ_r by lia. f_equal. lia. }
  assert (2 ^ (lv - 1) <= 2 ^ level_of r)
    by (apply Z.pow_le_mono_r; lia).
  rewrite El in IHl. lia.
Qed.

Lemma aa_height_bound t :
  aa t -> Z.of_nat (height t) <= height_bound (Z.of_nat (count t)).
Proof.
  intros Haa. destruct (aa_height _ Haa) as [Hh _].
  pose proof (aa_count _ Haa) as Hc.
  pose proof (aa_level_nonneg _ Haa) as H0.
  unfold height_bound.
  assert (2 ^ (2 * level_of t) <= (Z.of_nat (count t) + 1) ^ 2) as Hp.
  { replace (2 * level_of t) with (level_of t + level_of t) by lia.
    rewrite Z.pow_add_r by lia.
    assert (0 < 2 ^ level_of t) by (apply Z.pow_pos_nonneg; lia). nia. }
  apply Z.log2_up_le_mono in Hp.
  rewrite Z.log2_up_pow2 in Hp by lia. lia.
Qed.

Lemma run_inserts_count vs s :
  wf s ->
  (count (Root_ (run (OpInsert <$> vs) s)) <= count (Root_ s) + length vs)%nat.
Proof.
  revert s. induction vs as [|v vs IH]; intros s Hwf; [simpl; lia|].
  change (run (OpInsert <$> v :: vs) s) with (run (OpInsert <$> vs) (insert v s)).
  specialize (IH (insert v s) (wf_insert v s Hwf)).
  pose proof (count_insert_le v s Hwf). simpl length. lia.
Qed.

(** While the levels do not overflow, a history of inserts alone keeps the
    level invariants. *)
Theorem inserts_keep_level_invariants vs :
  Z.of_nat (length vs) < 2 ^ 32 ->
  aa_invariants (Root_ (run (OpInsert <$> vs) empty_set)) = true.
Proof.
  intros Hb. apply aa_invariants_aa, run_inserts_aa; [apply wf_empty_set|done|].
  change (Z.of_nat 0 + Z.of_nat (length vs) < 2 ^ 32). lia.
Qed.

Lemma inserts_keep_level_invariants_witness :
  Z.of_nat (length [5; 3; 8; 1; 4]) < 2 ^ 32 /\
  aa_invariants (Root_ (run (OpInsert <$> [5; 3; 8; 1; 4]) empty_set)) = true.
Proof.
  assert (Z.of_nat (length [5; 3; 8; 1; 4]) < 2 ^ 32) as H by (vm_compute; reflexivity).
  split; [exact H|]. exact (inserts_keep_level_invariants [5; 3; 8; 1; 4] H).
Defined.

(** While the levels do not overflow, a history of inserts alone keeps the
    height within the bound of the balance invariant. *)
Theorem inserts_keep_height_bound vs :
  Z.of_nat (length vs) < 2 ^ 32 ->
  Z.of_nat (height (Root_ (run (OpInsert <$> vs) empty_set)))
  <= height_bound (size (run (OpInsert <$> vs) empty_set)).
Proof.
  intros Hb.
  pose proof (wf_run (OpInsert <$> vs) empty_set wf_empty_set) as Hwf.
  pose proof (run_inserts_count vs empty_set wf_empty_set) as Hc.
  change (count (Root_ empty_set)) with 0%nat in Hc.
  unfold size. rewrite (wf_Size _ Hwf). unfold size_t.
  rewrite Z.mod_small by lia.
  apply aa_height_bound, run_inserts_aa; [apply wf_empty_set|done|].
  change (Z.of_nat 0 + Z.of_nat (length vs) < 2 ^ 32). lia.
Qed.

Lemma inserts_keep_height_bound_witness :
  Z.of_nat (length [5; 3; 8; 1; 4]) < 2 ^ 32 /\
  Z.of_nat (height (Root_ (run (OpInsert <$> [5; 3; 8; 1; 4]) empty_set)))
  <= height_bound (size (run (OpInsert <$> [5; 3; 8; 1; 4]) empty_set)).
Proof.
  assert (Z.of_nat (length [5; 3; 8; 1; 4]) < 2 ^ 32) as H by (vm_compute; reflexivity).
  split; [exact H|]. exact (inserts_keep_height_bound [5; 3; 8; 1; 4] H).
Defined.

(** ** Elements after [insert] and [erase] *)

Lemma sorted_ext xs ys :
  sorted xs -> sorted ys -> (forall x, x ∈ xs <-> x ∈ ys) -> xs = ys.
Proof.
  intros Hx Hy Hxy.
  apply (StronglySorted_unique_strong Z.lt); [intros; lia|done..|].
  apply NoDup_Permutation; [by apply sorted_NoDup..|done].
Qed.

(** In a reachable set, [insert(v)] adds [v] to the elements and nothing
    else, [erase(v)] removes [v] and nothing else, and the number of nodes
    changes by one exactly when the set of elements does. *)
Theorem insert_erase_elements s v :
  reachable s ->
  (forall x, x ∈ contents (insert v s) <-> x = v \/ x ∈ contents s) /\
  (forall x, x ∈ contents (erase v s) <-> x <> v /\ x ∈ contents s) /\
  length (contents (insert v s))
  = (length (contents s) + if decide (v ∈ contents s) then 0 else 1)%nat /\
  length (contents s)
  = (length (contents (erase v s)) + if decide (v ∈ contents s) then 1 else 0)%nat.
Proof.
  intros Hwf%reachable_wf. pose proof (wf_sorted _ Hwf) as Hs.
  rewrite contents_insert, contents_erase by done.
  split; [|split; [|split]].
  - intros x. apply elem_of_ins_list.
  - intros x. apply elem_of_del_list.
  - by apply length_ins_list.
  - by apply length_del_list, sorted_NoDup.
Qed.

Lemma insert_erase_elements_witness :
  reachable example_state /\
  (forall x, x ∈ contents (insert 4 example_state)
             <-> x = 4 \/ x ∈ contents example_state) /\
  (forall x, x ∈ contents (erase 4 example_state)
             <-> x <> 4 /\ x ∈ contents example_state) /\
  length (contents (insert 4 example_state))
  = (length (contents example_state)
     + if decide (4%Z ∈ contents example_state) then 0 else 1)%nat /\
  length (contents example_state)
  = (length (contents (erase 4 example_state))
     + if decide (4%Z ∈ contents example_state) then 1 else 0)%nat.
Proof.
  split; [exact reachable_example_state|].
  exact (insert_erase_elements example_state 4 reachable_example_state).
Defined.

(** In a reachable set, [find(w)] is a membership test: for an element it
    returns the iterator that [lower_bound(w)] returns, which dereferences
    to [w]; for any other value it returns the end iterator. *)
Theorem find_is_membership s this w :
  reachable s ->
  (w ∈ contents s ->
     exists it, find this s w = Some it /\ lower_bound this s w = Some it /\
                deref s it = Some w /\ iter_neqb it (end_ this) = true) /\
  (w ∉ contents s -> find this s w = Some (end_ this)).
Proof.
  intros Hwf%reachable_wf. split; [|by apply find_absent].
  intros Hin. pose proof (wf_sorted _ Hwf) as Hs.
  rewrite find_spec, lower_bound_spec by done.
  unfold contents in Hin. rewrite vals_inorder in Hin, Hs.
  destruct (addr_of_value_Some _ _ Hin) as (a & Ha & Hav).
  destruct (inorder_node_at _ _ _ (wf_uniq _ Hwf) Hav) as (lv & p & l & r & Hat).
  destruct (first_ge w (inorder (Root_ s))) as [b|] eqn:E.
  - destruct (first_ge_Some _ _ _ Hs E) as (v & Hbv & Hv & Hb).
    rewrite Ha in Hb. destruct (decide (v = w)) as [->|]; [|done].
    injection Hb as ->. exists (mkIter this (Some b)). rewrite Ha.
    split; [done|]. split; [done|]. split.
    + unfold deref. simpl. by rewrite Hat.
    + unfold iter_neqb. simpl. apply orb_true_r.
  - apply first_ge_None in E. rewrite Forall_forall in E.
    specialize (E _ Hin). lia.
Qed.

Lemma find_is_membership_witness :
  reachable example_state /\
  (4 ∈ contents example_state ->
     exists it, find 0%nat example_state 4 = Some it /\
                lower_bound 0%nat example_state 4 = Some it /\
                deref example_state it = Some 4 /\
                iter_neqb it (end_ 0%nat) = true) /\
  (4 ∉ contents example_state -> find 0%nat example_state 4 = Some (end_ 0%nat)).
Proof.
  split; [exact reachable_example_state|].
  exact (find_is_membership example_state 0%nat 4 reachable_example_state).
Defined.

(** In a reachable set: erasing a value right after inserting it, when it
    was not an element, gives back the in-order sequence and the size;
    so does inserting an element again right after erasing it; two inserts
    give the same sequence in either order, so do two erases, and a second
    erase of the same value changes nothing. *)
Theorem insert_erase_compose s a b :
  reachable s ->
  (a ∉ contents s ->
     contents (erase a (insert a s)) = contents s /\
     size (erase a (insert a s)) = size s) /\
  (a ∈ contents s ->
     contents (insert a (erase a s)) = contents s /\
     size (insert a (erase a s)) = size s) /\
  contents (insert a (insert b s)) = contents (insert b (insert a s)) /\
  contents (erase a (erase b s)) = contents (erase b (erase a s)) /\
  contents (erase a (erase a s)) = contents (erase a s).
Proof.
  intros Hwf%reachable_wf. pose proof (wf_sorted _ Hwf) as Hs.
  assert (forall v s0, wf s0 -> sorted (contents (insert v s0))) as Hsi
    by (intros; by apply wf_sorted, wf_insert).
  assert (forall v s0, wf s0 -> sorted (contents (erase v s0))) as Hse
    by (intros; by apply wf_sorted, wf_erase).
  assert (forall s1 s2, wf s1 -> wf s2 ->
            (forall x, x ∈ contents s1 <-> x ∈ contents s2) ->
            contents s1 = contents s2) as Hext.
  { intros s1 s2 H1 H2. apply sorted_ext; by apply wf_sorted. }
  split; [|split; [|split; [|split]]].
  - intros Ha.
    assert (contents (erase a (insert a s)) = contents s) as E.
    { apply Hext; [by apply wf_erase, wf_insert|done|].
      intros x. rewrite contents_erase, contents_insert by auto.
      rewrite elem_of_del_list, elem_of_ins_list.
      split; [tauto|]. intros Hx. split; [by intros ->|tauto]. }
    split; [done|].
    by apply size_eq_of_contents; [|apply wf_erase, wf_insert|].
  - intros Ha.
    assert (contents (insert a (erase a s)) = contents s) as E.
    { apply Hext; [by apply wf_insert, wf_erase|done|].
      intros x. rewrite contents_insert, contents_erase by auto.
      rewrite elem_of_ins_list, elem_of_del_list.
      split; [by intros [->|[_ ?]]|]. intros Hx.
      destruct (decide (x = a)); tauto. }
    split; [done|].
    by apply size_eq_of_contents; [|apply wf_insert, wf_erase|].
  - apply Hext; [by apply wf_insert, wf_insert..|].
    intros x. rewrite !contents_insert by auto.
    rewrite !elem_of_ins_list. tauto.
  - apply Hext; [by apply wf_erase, wf_erase..|].
    intros x. rewrite !contents_erase by auto.
    rewrite !elem_of_del_list. tauto.
  - apply Hext; [by apply wf_erase, wf_erase|by apply wf_erase|].
    intros x. rewrite !contents_erase by auto.
    rewrite !elem_of_del_list. tauto.
Qed.

Lemma insert_erase_compose_witness :
  reachable example_state /\
  (5 ∉ contents example_state ->
     contents (erase 5 (insert 5 example_state)) = contents example_state /\
     size (erase 5 (insert 5 example_state)) = size example_state) /\
  (5 ∈ contents example_state ->
     contents (insert 5 (erase 5 example_state)) = contents example_state /\
     size (insert 5 (erase 5 example_state)) = size example_state) /\
  contents (insert 5 (insert 1 example_state))
  = contents (insert 1 (insert 5 example_state)) /\
  contents (erase 5 (erase 1 example_state))
  = contents (erase 1 (erase 5 example_state)) /\
  contents (erase 5 (erase 5 example_state)) = contents (erase 5 example_state).
Proof.
  split; [exact reachable_example_state|].
  exact (insert_erase_compose example_state 5 1 reachable_example_state).
Defined.

(** ** The ends of the sequence and forward traversal *)

Lemma length_addrs_contents s : length (addrs (Root_ s)) = length (contents s).
Proof. by rewrite length_addrs, count_contents. Qed.

Lemma deref_lookup s this i :
  wf s -> deref s (mkIter this (addrs (Root_ s) !! i)) = contents s !! i.
Proof.
  intros Hwf. destruct (addrs (Root_ s) !! i) as [a|] eqn:E.
  - by apply deref_position.
  - apply lookup_ge_None_1 in E. rewrite length_addrs_contents in E.
    by rewrite lookup_ge_None_2.
Qed.

Lemma contents_nil_addrs s : contents s = [] <-> addrs (Root_ s) = [].
Proof.
  pose proof (length_addrs_contents s) as E.
  split; intros H; rewrite H in E; simpl in E.
  - by destruct (addrs (Root_ s)).
  - by destruct (contents s).
Qed.

(** In a reachable set [begin()] is at the smallest element and
    [--end()] at the largest; [begin() == end()] exactly when there is no
    element, and so is [empty()] as long as the number of nodes fits
    [size_t]. *)
Theorem begin_end_extremes s this :
  reachable s ->
  deref s (begin this s) = head (contents s) /\
  (exists it, operator_dec s (end_ this) = Some it /\
              deref s it = last (contents s)) /\
  (forall m x, head (contents s) = Some m -> x ∈ contents s -> m <= x) /\
  (forall m x, last (contents s) = Some m -> x ∈ contents s -> x <= m) /\
  (iter_eqb (begin this s) (end_ this) = true <-> contents s = []) /\
  (Z.of_nat (length (contents s)) < 2 ^ 64 ->
     (empty s = true <-> contents s = [])).
Proof.
  intros Hwf%reachable_wf. pose proof (wf_sorted _ Hwf) as Hs.
  split; [|split; [|split; [|split; [|split]]]].
  - by rewrite begin_spec, deref_lookup, head_lookup.
  - eexists. split; [apply operator_dec_end|].
    rewrite !last_lookup, deref_lookup by done.
    by rewrite length_addrs_contents.
  - intros m x Hm Hx. unfold contents in *.
    destruct (vals (Root_ s)) as [|y ys]; [done|]. injection Hm as ->.
    apply StronglySorted_cons in Hs as [Hall _].
    apply elem_of_cons in Hx as [->|Hx]; [lia|].
    rewrite Forall_forall in Hall. specialize (Hall _ Hx). lia.
  - intros m x Hm Hx. unfold contents in *.
    apply last_Some in Hm as [ys Hm]. rewrite Hm in Hs, Hx.
    apply sorted_node in Hs as (_ & _ & Hall & _).
    apply elem_of_app in Hx as [Hx|Hx].
    + rewrite Forall_forall in Hall. specialize (Hall _ Hx). lia.
    + apply list_elem_of_singleton in Hx as ->. lia.
  - rewrite begin_spec, contents_nil_addrs. unfold iter_eqb, end_. simpl.
    rewrite bool_decide_eq_true_2 by done. simpl.
    rewrite bool_decide_eq_true.
    destruct (addrs (Root_ s)); simpl; split; done.
  - intros Hlt. unfold empty. rewrite (wf_Size _ Hwf), count_contents.
    unfold size_t. rewrite Z.mod_small by lia. rewrite Z.eqb_eq.
    destruct (contents s); simpl; split; (done || lia).
Qed.

Lemma begin_end_extremes_witness :
  reachable example_state /\
  deref example_state (begin 0%nat example_state)
  = head (contents example_state) /\
  (exists it, operator_dec example_state (end_ 0%nat) = Some it /\
              deref example_state it = last (contents example_state)) /\
  (forall m x, head (contents example_state) = Some m ->
               x ∈ contents example_state -> m <= x) /\
  (forall m x, last (contents example_state) = Some m ->
               x ∈ contents example_state -> x <= m) /\
  (iter_eqb (begin 0%nat example_state) (end_ 0%nat) = true
   <-> contents example_state = []) /\
  (Z.of_nat (length (contents example_state)) < 2 ^ 64 ->
     (empty example_state = true <-> contents example_state = [])).
Proof.
  split; [exact reachable_example_state|].
  exact (begin_end_extremes example_state 0%nat reachable_example_state).
Defined.

Lemma advance_spec s this k :
  wf s ->
  forall i, (i + k <= length (contents s))%nat ->
    advance k s (mkIter this (addrs (Root_ s) !! i))
    = Some (mkIter this (addrs (Root_ s) !! (i + k)%nat)).
Proof.
  intros Hwf. induction k as [|k IH]; intros i Hi.
  - simpl. by rewrite Nat.add_0_r.
  - simpl.
    destruct (lookup_lt_is_Some_2 (addrs (Root_ s)) i) as [a Ha];
      [rewrite length_addrs_contents; lia|].
    rewrite Ha, (operator_inc_spec s this i a Hwf Ha).
    rewrite IH by lia. do 3 f_equal. lia.
Qed.

(** In a reachable set of [n] elements, [k <= n] increments from [begin()]
    lead to the [k]-th element of the sorted sequence, and to the end
    iterator exactly when [k = n]: the traversal from [begin()] to [end()]
    visits the elements in ascending order, each once. *)
Theorem advance_from_begin s this k :
  reachable s ->
  (k <= length (contents s))%nat ->
  exists it,
    advance k s (begin this s) = Some it /\
    deref s it = contents s !! k /\
    (iter_eqb it (end_ this) = true <-> k = length (contents s)).
Proof.
  intros Hwf%reachable_wf Hk.
  rewrite begin_spec, (advance_spec s this k Hwf 0) by done. simpl.
  eexists. split; [done|]. split; [by apply deref_lookup|].
  unfold iter_eqb, end_. simpl.
  rewrite bool_decide_eq_true_2 by done. simpl. rewrite bool_decide_eq_true.
  rewrite <-length_addrs_contents in *. split.
  - intros H%lookup_ge_None_1. lia.
  - intros ->. by apply lookup_ge_None_2.
Qed.

Lemma advance_from_begin_witness :
  reachable example_state /\
  (2 <= length (contents example_state))%nat /\
  exists it,
    advance 2 example_state (begin 0%nat example_state) = Some it /\
    deref example_state it = contents example_state !! 2%nat /\
    (iter_eqb it (end_ 0%nat) = true <-> 2%nat = length (contents example_state)).
Proof.
  assert (2 <= length (contents example_state))%nat as H by (vm_compute; lia).
  split; [exact reachable_example_state|]. split; [exact H|].
  exact (advance_from_begin example_state 0%nat 2 reachable_example_state H).
Defined.

(** ** Construction from a sequence *)

Lemma from_list_run vs : from_list vs = run (OpInsert <$> vs) empty_set.
Proof.
  unfold from_list, run. generalize empty_set.
  induction vs as [|v vs IH]; intros s; [done|]. simpl. apply IH.
Qed.

Lemma run_inserts_elements vs s x :
  wf s ->
  x ∈ contents (run (OpInsert <$> vs) s) <-> x ∈ vs \/ x ∈ contents s.
Proof.
  revert s. induction vs as [|v vs IH]; intros s Hwf.
  - simpl. split; [tauto|]. by intros [?%elem_of_nil|?].
  - change (run (OpInsert <$> v :: vs) s) with (run (OpInsert <$> vs) (insert v s)).
    rewrite IH by (by apply wf_insert).
    rewrite contents_insert by apply Hwf.
    rewrite elem_of_ins_list, elem_of_cons. tauto.
Qed.

Lemma length_remove_dups_le (vs : list Z) :
  (length (remove_dups vs) <= length vs)%nat.
Proof.
  induction vs as [|v vs IH]; [done|]. simpl.
  destruct (decide_rel _ _ _); simpl; lia.
Qed.

(** The constructors from a list and from a range give a reachable set
    whose in-order sequence is strictly ascending and holds exactly the
    values of the input, and whose size is the number of distinct values
    (as long as the length of the input fits [size_t]). *)
Theorem from_list_contents vs :
  Z.of_nat (length vs) < 2 ^ 64 ->
  reachable (from_list vs) /\
  sorted (contents (from_list vs)) /\
  (forall x, x ∈ contents (from_list vs) <-> x ∈ vs) /\
  size (from_list vs) = Z.of_nat (length (remove_dups vs)).
Proof.
  intros Hlt. rewrite from_list_run.
  assert (reachable (run (OpInsert <$> vs) empty_set)) as Hr by (by eexists).
  pose proof (reachable_wf _ Hr) as Hwf.
  assert (forall x, x ∈ contents (run (OpInsert <$> vs) empty_set) <-> x ∈ vs) as Hel.
  { intros x. rewrite run_inserts_elements by apply wf_empty_set.
    split; [|tauto]. by intros [?|?%elem_of_nil]. }
  split; [done|]. split; [apply Hwf|]. split; [done|].
  assert (contents (run (OpInsert <$> vs) empty_set) ≡ₚ remove_dups vs) as Hp.
  { apply NoDup_Permutation.
    - apply sorted_NoDup, Hwf.
    - apply NoDup_remove_dups.
    - intros x. by rewrite Hel, elem_of_remove_dups. }
  unfold size. rewrite (wf_Size _ Hwf), count_contents, Hp.
  unfold size_t. apply Z.mod_small.
  pose proof (length_remove_dups_le vs). lia.
Qed.

Lemma from_list_contents_witness :
  Z.of_nat (length [5; 3; 8; 3; 5]) < 2 ^ 64 /\
  reachable (from_list [5; 3; 8; 3; 5]) /\
  sorted (contents (from_list [5; 3; 8; 3; 5])) /\
  (forall x, x ∈ contents (from_list [5; 3; 8; 3; 5]) <-> x ∈ [5; 3; 8; 3; 5]) /\
  size (from_list [5; 3; 8; 3; 5]) = Z.of_nat (length (remove_dups [5; 3; 8; 3; 5])).
Proof.
  assert (Z.of_nat (length [5; 3; 8; 3; 5]) < 2 ^ 64) as H by (vm_compute; reflexivity).
  split; [exact H|]. exact (from_list_contents [5; 3; 8; 3; 5] H).
Defined.

(** ** Copying *)

Lemma wf_fresh brk : wf (mkStore nullptr 0 brk).
Proof.
  split; simpl; try done. constructor.
Qed.

Lemma ins_list_snoc v xs : Forall (fun x => x < v) xs -> ins_list v xs = xs ++ [v].
Proof.
  intros H. unfold ins_list.
  by rewrite (filter_all _ xs), (filter_none _ xs) by forall_lia.
Qed.

Lemma run_inserts_ascending ys s :
  wf s -> sorted (contents s ++ ys) ->
  contents (run (OpInsert <$> ys) s) = contents s ++ ys.
Proof.
  revert s. induction ys as [|y ys IH]; intros s Hwf Hs.
  - simpl. by rewrite app_nil_r.
  - change (run (OpInsert <$> y :: ys) s) with (run (OpInsert <$> ys) (insert y s)).
    pose proof Hs as (_ & _ & Hall & _)%sorted_node.
    assert (contents (insert y s) = contents s ++ [y]) as E.
    { rewrite contents_insert by apply Hwf. by apply ins_list_snoc. }
    rewrite IH; [|by apply wf_insert|]; rewrite E, <-app_assoc; done.
Qed.

Lemma apply_op_alloc s o :
  alloc_rel (Root_ s) s (Root_ (apply_op s o)) (apply_op s o).
Proof.
  destruct o as [v|v]; simpl.
  - destruct (insert_unfold v s) as (r & s' & E & ->).
    apply Insert_alloc in E. simpl. exact E.
  - destruct (erase_unfold v s) as (r & s' & E & ->).
    apply Erase_alloc in E. simpl. exact E.
Qed.

Lemma run_alloc ops s : alloc_rel (Root_ s) s (Root_ (run ops s)) (run ops s).
Proof.
  revert s. induction ops as [|o ops IH]; intros s; [apply alloc_rel_refl|].
  simpl. eapply alloc_rel_trans; [apply apply_op_alloc|apply IH].
Qed.

Lemma copy_loop_spec from src :
  wf src ->
  forall k i dst fuel,
    (i + k = length (contents src))%nat -> (k < fuel)%nat ->
    copy_loop fuel from src (mkIter from (addrs (Root_ src) !! i)) dst
    = Some (run (OpInsert <$> drop i (contents src)) dst).
Proof.
  intros Hwf. induction k as [|k IH]; intros i dst fuel Hi Hf;
    (destruct fuel as [|fuel]; [lia|]); simpl.
  - rewrite lookup_ge_None_2 by (rewrite length_addrs_contents; lia).
    rewrite drop_ge by lia. unfold iter_neqb. simpl.
    by rewrite !bool_decide_eq_true_2.
  - destruct (lookup_lt_is_Some_2 (addrs (Root_ src)) i) as [a Ha];
      [rewrite length_addrs_contents; lia|].
    destruct (lookup_lt_is_Some_2 (contents src) i) as [v Hv]; [lia|].
    rewrite Ha. unfold iter_neqb. simpl. rewrite orb_true_r.
    rewrite (deref_position src from i a Hwf Ha), Hv.
    rewrite (operator_inc_spec src from i a Hwf Ha).
    rewrite IH by lia. by rewrite (drop_S _ _ _ Hv).
Qed.

Lemma copy_loop_begin from src dst :
  wf src ->
  copy_loop (S (count (Root_ src))) from src (begin from src) dst
  = Some (run (OpInsert <$> contents src) dst).
Proof.
  intros Hwf. rewrite begin_spec.
  rewrite (copy_loop_spec from src Hwf (length (contents src)) 0);
    [done|done|rewrite count_contents; lia].
Qed.

Lemma copied_state brk sz src :
  wf src -> sz = 0 ->
  let dst := run (OpInsert <$> contents src) (mkStore nullptr sz brk) in
  contents dst = contents src /\ size dst = size src /\ wf dst /\
  (below brk (Root_ src) -> live (Root_ dst) ## live (Root_ src)) /\
  (Z.of_nat (length (contents src)) < 2 ^ 32 -> aa_invariants (Root_ dst) = true).
Proof.
  intros Hwf -> dst.
  pose proof (wf_run (OpInsert <$> contents src) _ (wf_fresh brk)) as Hwfd.
  assert (contents dst = contents src) as E.
  { unfold dst. rewrite run_inserts_ascending; [done|apply wf_fresh|].
    apply Hwf. }
  split; [done|]. split; [by apply size_eq_of_contents|]. split; [done|]. split.
  - intros Hb a Hd Hs.
    destruct (run_alloc (OpInsert <$> contents src) (mkStore nullptr 0 brk))
      as (_ & Hsub & _).
    destruct (Hsub a Hd) as [[]%elem_of_empty|[Hge _]].
    specialize (Hb a Hs). simpl in Hge. lia.
  - intros Hlt. apply aa_invariants_aa, run_inserts_aa; [apply wf_fresh|done|].
    change (Z.of_nat 0 + Z.of_nat (length (contents src)) < 2 ^ 32). lia.
Qed.

(** The copy constructor, called on a reachable set while the allocator is
    beyond its nodes, returns a set with the same in-order sequence and
    size whose nodes are all new; its parent references are consistent, and
    it satisfies the level invariants (for fewer than 2^32 elements) whether
    or not the source does. *)
Theorem copy_construct_correct brk from src :
  reachable src ->
  below brk (Root_ src) ->
  exists dst,
    copy_construct brk from src = Some dst /\
    contents dst = contents src /\
    size dst = size src /\
    live (Root_ dst) ## live (Root_ src) /\
    parents_consistent (Root_ dst) /\
    (Z.of_nat (length (contents src)) < 2 ^ 32 ->
       aa_invariants (Root_ dst) = true).
Proof.
  intros Hwf%reachable_wf Hb. unfold copy_construct.
  rewrite copy_loop_begin by done. eexists. split; [done|].
  destruct (copied_state brk 0 src Hwf eq_refl) as (E & Hsz & Hwfd & Hdis & Haa).
  split; [done|]. split; [done|]. split; [by apply Hdis|].
  split; [|done]. apply parents_ok_consistent; apply Hwfd.
Qed.

Lemma copy_construct_correct_witness :
  reachable example_state /\
  below (next_addr example_state) (Root_ example_state) /\
  exists dst,
    copy_construct (next_addr example_state) 0%nat example_state = Some dst /\
    contents dst = contents example_state /\
    size dst = size example_state /\
    live (Root_ dst) ## live (Root_ example_state) /\
    parents_consistent (Root_ dst) /\
    (Z.of_nat (length (contents example_state)) < 2 ^ 32 ->
       aa_invariants (Root_ dst) = true).
Proof.
  pose proof (wf_below _ (reachable_wf _ reachable_example_state)) as H.
  split; [exact reachable_example_state|]. split; [exact H|].
  exact (copy_construct_correct (next_addr example_state) 0%nat example_state
           reachable_example_state H).
Defined.

(** [operator=] between two reachable sets: self-assignment returns the
    set as it is; otherwise the result has the in-order sequence and the
    size of the right-hand side, whatever the left-hand side held, and its
    nodes are new when the allocator is beyond the nodes of the right-hand
    side. *)
Theorem assign_correct brk this from dst src :
  reachable src ->
  reachable dst ->
  (this = from -> assign brk this from dst src = Some dst) /\
  (this <> from ->
     exists r, assign brk this from dst src = Some r /\
               contents r = contents src /\
               size r = size src /\
               (below brk (Root_ src) -> live (Root_ r) ## live (Root_ src))).
Proof.
  intros Hwf%reachable_wf Hwfd%reachable_wf. unfold assign. split.
  - intros ->. by rewrite decide_True.
  - intros Hne. rewrite decide_False by done.
    rewrite copy_loop_begin by done. eexists. split; [done|].
    destruct (Root_ dst) eqn:ER.
    + pose proof (wf_Size _ Hwfd) as HS. rewrite ER in HS.
      destruct (copied_state brk (Size_ dst) src Hwf HS) as (E & Hsz & _ & Hdis & _).
      done.
    + destruct (copied_state brk 0 src Hwf eq_refl) as (E & Hsz & _ & Hdis & _).
      done.
Qed.

Lemma assign_correct_witness :
  reachable set_1358 /\
  reachable example_state /\
  (1%nat = 2%nat ->
     assign 20%nat 1%nat 2%nat example_state set_1358 = Some example_state) /\
  (1%nat <> 2%nat ->
     exists r, assign 20%nat 1%nat 2%nat example_state set_1358 = Some r /\
               contents r = contents set_1358 /\
               size r = size set_1358 /\
               (below 20%nat (Root_ set_1358) ->
                  live (Root_ r) ## live (Root_ set_1358))).
Proof.
  split; [exact reachable_set_1358|]. split; [exact reachable_example_state|].
  exact (assign_correct 20%nat 1%nat 2%nat example_state set_1358
           reachable_set_1358 reachable_example_state).
Defined.

(** ** Destruction *)

Lemma elem_of_addrs_live a t : a ∈ addrs t <-> a ∈ live t.
Proof.
  induction t as [|b v lv p l IHl r IHr]; simpl.
  - split; [by intros ?%elem_of_nil|by intros ?%elem_of_empty].
  - rewrite elem_of_app, elem_of_cons, !elem_of_union, elem_of_singleton.
    tauto.
Qed.

Lemma uniq_NoDup t : uniq t -> NoDup (addrs t).
Proof.
  induction t as [|b v lv p l IHl r IHr]; simpl; [constructor|].
  intros (Hbl & Hbr & Hlr & Hl & Hr).
  apply NoDup_app. split; [auto|]. split.
  - intros x Hx [->|Hx']%elem_of_cons.
    + by apply Hbl, elem_of_addrs_live.
    + apply (Hlr x); by apply elem_of_addrs_live.
  - constructor; [|auto]. by rewrite elem_of_addrs_live.
Qed.

Lemma Clear_addrs t : Clear t ≡ₚ addrs t.
Proof.
  induction t as [|b v lv p l IHl r IHr]; simpl; [done|].
  rewrite IHl, IHr. by rewrite (comm (++) (addrs r) [b]).
Qed.

Lemma elem_of_Clear_live a t : a ∈ Clear t <-> a ∈ live t.
Proof. by rewrite Clear_addrs, elem_of_addrs_live. Qed.

Lemma Clear_children_first a v lv p l r t :
  node_of (Node a v lv p l r) t ->
  exists before after,
    Clear t = before ++ a :: after /\
    forall b, b ∈ live l \/ b ∈ live r -> b ∈ before.
Proof.
  induction t as [|a0 v0 lv0 p0 L IHL R IHR]; [done|].
  simpl. intros [E|[H|H]].
  - injection E as -> -> -> -> -> ->.
    exists (Clear L ++ Clear R), []. split; [by rewrite <-app_assoc|].
    intros b. rewrite elem_of_app, !elem_of_Clear_live. tauto.
  - destruct (IHL H) as (bf & af & E & Hb).
    exists bf, (af ++ Clear R ++ [a0]). split; [|done].
    by rewrite E, <-app_assoc.
  - destruct (IHR H) as (bf & af & E & Hb).
    exists (Clear L ++ bf), (af ++ [a0]). split.
    + by rewrite E, <-!app_assoc.
    + intros b Hbb. apply elem_of_app. right. auto.
Qed.

(** Destroying a reachable set (the destructor, or the clearing step of
    [operator=]) deletes every node of the tree, each exactly once, and
    deletes a node only after all the nodes of its two subtrees. *)
Theorem Clear_deletes_each_node_once s :
  reachable s ->
  NoDup (Clear (Root_ s)) /\
  (forall a, a ∈ Clear (Root_ s) <-> a ∈ live (Root_ s)) /\
  forall a v lv p l r,
    node_of (Node a v lv p l r) (Root_ s) ->
    exists before after,
      Clear (Root_ s) = before ++ a :: after /\
      forall b, b ∈ live l \/ b ∈ live r -> b ∈ before.
Proof.
  intros Hwf%reachable_wf. split; [|split].
  - rewrite Clear_addrs. apply uniq_NoDup, Hwf.
  - intros a. apply elem_of_Clear_live.
  - intros a v lv p l r. apply Clear_children_first.
Qed.

Lemma Clear_deletes_each_node_once_witness :
  reachable example_state /\
  NoDup (Clear (Root_ example_state)) /\
  (forall a, a ∈ Clear (Root_ example_state) <-> a ∈ live (Root_ example_state)) /\
  forall a v lv p l r,
    node_of (Node a v lv p l r) (Root_ example_state) ->
    exists before after,
      Clear (Root_ example_state) = before ++ a :: after /\
      forall b, b ∈ live l \/ b ∈ live r -> b ∈ before.
Proof.
  split; [exact reachable_example_state|].
  exact (Clear_deletes_each_node_once example_state reachable_example_state).
Defined.
(** ** The neighbours used by [Erase], and what a rotation does to addresses *)

(** In a node whose values are in strictly ascending order,
    [Predecessor] (defined when the left child is not null) returns the node
    of the greatest value below the node's own, and [Successor] (defined when
    the right child is not null) the node of the least value above it; the
    node returned has no right, respectively no left, child. *)
Theorem Successor_Predecessor_adjacent a v lv p l r :
  sorted (vals (Node a v lv p l r)) ->
  (l <> nullptr ->
   exists b w blv bp bl,
     Predecessor (Node a v lv p l r) = Node b w blv bp bl nullptr /\
     w < v /\ w ∈ vals l /\
     forall u, u ∈ vals (Node a v lv p l r) -> u < v -> u <= w) /\
  (r <> nullptr ->
   exists b w blv bp br,
     Successor (Node a v lv p l r) = Node b w blv bp nullptr br /\
     v < w /\ w ∈ vals r /\
     forall u, u ∈ vals (Node a v lv p l r) -> v < u -> w <= u).
Proof.
  simpl. intros (Hsl & Hsr & Hl & Hr)%sorted_node.
  rewrite Forall_forall in Hl, Hr. split; intros Hn.
  - destruct (vals_rightmost l Hn) as (b&w&blv&bp&bl&xs&E&Ev).
    exists b, w, blv, bp, bl. rewrite E, Ev in *.
    assert (w ∈ xs ++ [w]) as Hw by (rewrite elem_of_app, list_elem_of_singleton; auto).
    split; [done|]. split; [by apply Hl|]. split; [done|].
    apply sorted_node in Hsl as (_ & _ & Hxs & _). rewrite Forall_forall in Hxs.
    intros u. rewrite !elem_of_app, !elem_of_cons, elem_of_nil.
    intros [[Hu|[->|[]]]|[->|Hu]] Huv; try lia.
    + apply Hxs in Hu. lia.
    + apply Hr in Hu. lia.
  - destruct (vals_leftmost r Hn) as (b&w&blv&bp&br&ys&E&Ev).
    exists b, w, blv, bp, br. rewrite E, Ev in *.
    assert (w ∈ w :: ys) as Hw by (rewrite elem_of_cons; auto).
    split; [done|]. split; [by apply Hr|]. split; [done|].
    apply (sorted_node []) in Hsr as (_ & _ & _ & Hys). rewrite Forall_forall in Hys.
    intros u. rewrite !elem_of_app, !elem_of_cons.
    intros [Hu|[->|[->|Hu]]] Huv; try lia.
    + apply Hl in Hu. lia.
    + apply Hys in Hu. lia.
Qed.

Lemma Successor_Predecessor_adjacent_witness :
  sorted (vals (Node 2%nat 5 2 None
                  (Node 1%nat 3 1 (Some 2%nat) nullptr nullptr)
                  (Node 3%nat 8 1 (Some 2%nat) nullptr nullptr))) /\
  (exists b w blv bp bl,
     Predecessor (Node 2%nat 5 2 None
                    (Node 1%nat 3 1 (Some 2%nat) nullptr nullptr)
                    (Node 3%nat 8 1 (Some 2%nat) nullptr nullptr))
       = Node b w blv bp bl nullptr /\ w < 5) /\
  (exists b w blv bp br,
     Successor (Node 2%nat 5 2 None
                  (Node 1%nat 3 1 (Some 2%nat) nullptr nullptr)
                  (Node 3%nat 8 1 (Some 2%nat) nullptr nullptr))
       = Node b w blv bp nullptr br /\ 5 < w).
Proof.
  assert (sorted (vals (Node 2%nat 5 2 None
                  (Node 1%nat 3 1 (Some 2%nat) nullptr nullptr)
                  (Node 3%nat 8 1 (Some 2%nat) nullptr nullptr)))) as Hs
    by (unfold sorted; simpl; repeat constructor).
  destruct (Successor_Predecessor_adjacent 2%nat 5 2 None
              (Node 1%nat 3 1 (Some 2%nat) nullptr nullptr)
              (Node 3%nat 8 1 (Some 2%nat) nullptr nullptr) Hs) as [HP HS].
  split; [exact Hs|]. split.
  - destruct (HP ltac:(done)) as (b&w&blv&bp&bl&E&Hw&_). by exists b, w, blv, bp, bl.
  - destruct (HS ltac:(done)) as (b&w&blv&bp&br&E&Hw&_). by exists b, w, blv, bp, br.
Defined.

(** A rotation rebuilds the nodes it turns: when [Skew] or [Split]
    returns something other than the node it was given, the result holds the
    same values in the same order, but the node it was given has been deleted
    and its address designates no node of the result. *)
Theorem rotation_relocates_node t s c s' a :
  uniq t -> below (next_addr s) t ->
  Skew t s = (c, s') \/ Split t s = (c, s') ->
  self_of t = Some a -> c <> t ->
  vals c = vals t /\ node_at a c = None.
Proof.
  intros Hu Hb H Ha Hc. split.
  { destruct H as [H|H]; [by eapply vals_Skew|by eapply vals_Split]. }
  apply node_at_None. destruct H as [H|H].
  - apply Skew_cases in H as [[-> _]|H]; [done|].
    destruct H as (a0&dv&lv&dprev&b0&bv&bprev&A&C&F&->&->&_).
    injection Ha as ->. simpl in Hu.
    assert (a < next_addr s)%nat
      by (apply Hb; simpl; rewrite !elem_of_union, elem_of_singleton; auto).
    simpl. rewrite !live_set_parent.
    rewrite !not_elem_of_union, !not_elem_of_singleton in *.
    repeat split; try lia; tauto.
  - apply Split_cases in H as [[-> _]|H]; [done|].
    destruct H as (a0&bv&lv&bprev&A&c0&cv&clv&cprev&D&e0&ev&eprev&El&Er&->&->&_).
    injection Ha as ->. simpl in Hu.
    assert (a < next_addr s)%nat
      by (apply Hb; simpl; rewrite !elem_of_union, elem_of_singleton; auto).
    simpl. rewrite !live_set_parent.
    rewrite !not_elem_of_union, !not_elem_of_singleton in *.
    repeat split; try lia; tauto.
Qed.

Lemma rotation_relocates_node_witness :
  exists c s',
    Split (Node 1%nat 1 1 None nullptr
             (Node 2%nat 2 1 (Some 1%nat) nullptr
                (Node 3%nat 3 1 (Some 2%nat) nullptr nullptr)))
          (mkStore nullptr 3 4%nat) = (c, s') /\
    vals c = [1; 2; 3] /\ node_at 1%nat c = None.
Proof.
  eexists _, _. split; [reflexivity|].
  eapply (rotation_relocates_node
            (Node 1%nat 1 1 None nullptr
               (Node 2%nat 2 1 (Some 1%nat) nullptr
                  (Node 3%nat 3 1 (Some 2%nat) nullptr nullptr)))
            (mkStore nullptr 3 4%nat)).
  - simpl. rewrite !not_elem_of_union, !not_elem_of_singleton.
    repeat split; try lia; try apply not_elem_of_empty; apply disjoint_empty_l.
  - intros b. simpl. rewrite !elem_of_union, !elem_of_singleton, elem_of_empty.
    lia.
  - right. reflexivity.
  - reflexivity.
  - discriminate.
Defined.
